(** * stevensMapLib: a shallow embedding of [stevensMapLib.hpp]

    The header is a flat collection of function templates over
    [std::unordered_map] and "maplike" containers.  Every function is a
    loop (or two) over the entries of a container, so what the functions
    compute depends on the order in which the container is iterated.  The
    embedding therefore represents a container by the list of its entries
    in iteration order. *)

From stdpp Require Import base decidable option numbers list strings pretty.

Local Open Scope Z_scope.

(** ** Outcomes of a call

    A call either returns, leaves through a C++ exception, or performs an
    operation for which the language gives no meaning. *)

Inductive exception : Type :=
  | EmptyContainerError.

Inductive fault : Type :=
  | ModuloByZero            (* [x % 0] *)
  | EndIteratorDereference  (* [it->first] with [it == end()] *)
  | SignedOverflow.         (* [i++] with [i == INT_MAX] *)

Inductive outcome (A : Type) : Type :=
  | Returned (a : A)
  | Raised (e : exception)
  | Undefined (f : fault).

Arguments Returned {A} a.
Arguments Raised {A} e.
Arguments Undefined {A} f.

(** ** The container

    [umap K V] is the list of the entries of a [std::unordered_map<K,V>]
    (or [std::map<K,V>]) in iteration order.  A container holds each key
    once: that is [wf].  The member functions used by the library are
    [contains], [operator[]] (read: [subscript], write: [assign]),
    [emplace], [erase] and [size]. *)

Abbreviation umap K V := (list (K * V)).

Module UMap.
Section container.
Context {K V : Type} `{EqDecision K}.

Definition keys (m : umap K V) : list K := m.*1.

Definition wf (m : umap K V) : Prop := NoDup (keys m).

Definition size (m : umap K V) : nat := length m.

(** [m.find(k)], as the entry's value. *)
Fixpoint get (k : K) (m : umap K V) : option V :=
  match m with
  | [] => None
  | (k', v) :: m' => if decide (k = k') then Some v else get k m'
  end.

(** [m.contains(k)]. *)
Definition contains (k : K) (m : umap K V) : bool :=
  match get k m with Some _ => true | None => false end.

(** [m[k] = v]: the entry of [k] is overwritten where it stands; a new
    key gets a new entry (its place in the iteration order is not
    specified by the container; the embedding puts it last). *)
Fixpoint assign (k : K) (v : V) (m : umap K V) : umap K V :=
  match m with
  | [] => [(k, v)]
  | (k', v') :: m' =>
      if decide (k = k') then (k', v) :: m' else (k', v') :: assign k v m'
  end.

(** [m[k]] read: the value of [k], and the container afterwards; a
    missing key is inserted with a value-initialised value [dflt]. *)
Definition subscript (dflt : V) (k : K) (m : umap K V) : V * umap K V :=
  match get k m with
  | Some v => (v, m)
  | None => (dflt, m ++ [(k, dflt)])
  end.

(** [m.emplace(k, v)]: inserts only if [k] has no entry yet (the new
    entry is put last, as for [assign]; the container does not specify
    its place). *)
Definition emplace (k : K) (v : V) (m : umap K V) : umap K V :=
  if contains k m then m else m ++ [(k, v)].

(** [m.erase(k)]: removes the entry of [k], if any. *)
Fixpoint erase (k : K) (m : umap K V) : umap K V :=
  match m with
  | [] => []
  | (k', v') :: m' =>
      if decide (k = k') then m' else (k', v') :: erase k m'
  end.

End container.
End UMap.

(** ** Collaborators outside the header *)

Module stevensStringLib.

(** Modelled from the spec: [stevensStringLib::replaceSubstr], which
    [stevensStringLib.h] declares; that header is not among the sources.
    The spec (section 6) asks for "replace all occurrences of substring T
    in string S with replacement R".  Occurrences are taken from left to
    right and do not overlap; [skip] counts the characters of the
    occurrence under replacement that remain to be dropped.  The empty
    string has no occurrence. *)
Fixpoint replace_all (t r : string) (skip : nat) (s : string) : string :=
  match s with
  | EmptyString => EmptyString
  | String c s' =>
      match skip with
      | S n => replace_all t r n s'
      | O =>
          if String.prefix t s
          then r +:+ replace_all t r (String.length t - 1) s'
          else String c (replace_all t r 0 s')
      end
  end.

Definition replaceSubstr (s t r : string) : string :=
  if decide (t = "") then s else replace_all t r 0 s.

(** Modelled from the spec: [stevensStringLib::startsWith], declared in
    the same header.  The spec (section 6) asks for "does string S start
    with prefix P". *)
Definition startsWith (s p : string) : bool := String.prefix p s.

End stevensStringLib.

(** [std::to_string(int)]: the decimal numeral, with a leading [-] for a
    negative number. *)
Definition to_string (i : Z) : string := pretty i.

(** The range of [int]. *)
Definition INT_MAX : Z := 2147483647.
Definition INT_MIN : Z := -2147483648.

(** ** The library *)

Module stevensMapLib.
Import UMap.

Section maplike.
Context {K V : Type} `{EqDecision K}.

(** [operator+] on keys and on values, and the value-initialised [V]
    that [operator[]] inserts for a missing key. *)
Variable addK : K → K → K.
Variable addV : V → V → V.
Variable dflt : V.

(** The body of the first loop of [addUnordered_maps], for one entry
    [key, value] of [A].  [A[key]] and [B[key]] are reads of a key that
    is present, so they leave [A] and [B] as they are. *)
Definition add_shared_step (A B : umap K V) (addOperationTarget : string)
    (omitKeysNotShared : bool) (AB : umap K V) (entry : K * V) : umap K V :=
  let '(key, value) := entry in
  if contains key B then
    if decide (addOperationTarget = "values") then
      assign key (addV (subscript dflt key A).1 (subscript dflt key B).1) AB
    else
      assign (addK key key)
        (addV (subscript dflt key A).1 (subscript dflt key B).1) AB
  else
    if negb omitKeysNotShared then assign key value AB else AB.

(** The body of the second loop, for one entry [key, value] of [B]. *)
Definition add_unmatched_step (AB : umap K V) (entry : K * V) : umap K V :=
  let '(key, value) := entry in
  if negb (contains key AB) then assign key value AB else AB.

Definition addUnordered_maps (A B : umap K V) (addOperationTarget : string)
    (omitKeysNotShared : bool) : umap K V :=
  let AB := foldl (add_shared_step A B addOperationTarget omitKeysNotShared) [] A in
  if negb omitKeysNotShared then foldl add_unmatched_step AB B else AB.

(** [getRandomKey]; [rand] is the value that the call of [rand()]
    returns, a number between 0 and [RAND_MAX]. *)
Definition getRandomKey (map : umap K V) (rand : nat) : outcome K :=
  if decide (size map = 0%nat) then Undefined ModuloByZero
  else
    match keys map !! (rand `mod` size map)%nat with
    | Some key => Returned key
    | None => Undefined EndIteratorDereference
    end.

Definition getFirstKey (map : umap K V) : outcome K :=
  match map with
  | [] => Undefined EndIteratorDereference
  | (key, _) :: _ => Returned key
  end.

(** [popRandom] returns the pair, and leaves the container changed: both
    are in the outcome. *)
Definition popRandom (map : umap K V) (rand : nat)
    : outcome ((K * V) * umap K V) :=
  match getRandomKey map rand with
  | Returned key =>
      let '(value, map1) := subscript dflt key map in
      let randomPair := (key, value) in
      Returned (randomPair, erase key map1)
  | Raised e => Raised e
  | Undefined f => Undefined f
  end.

(** [setNegativeValuesToZero]: the loop visits the entries of [map] in
    place, one position after the other; [value] is the value that the
    visited entry has at that time. *)
Definition clamp_step (lt0 : V → bool) (zero : V) (map : umap K V) (i : nat)
    : umap K V :=
  match map !! i with
  | Some (key, value) => if lt0 value then assign key zero map else map
  | None => map
  end.

Definition setNegativeValuesToZero (lt0 : V → bool) (zero : V)
    (map : umap K V) : umap K V :=
  foldl (clamp_step lt0 zero) map (seq 0 (size map)).

(** [unordered_map_to_vecOfTuples]; a [std::vector] is the list of its
    elements and [push_back] appends one at the end. *)
Definition unordered_map_to_vecOfTuples (map : umap K V) : list (K * V) :=
  foldl (λ returnVec '(key, value), returnVec ++ [(key, value)]) [] map.

Definition getKeyVector (map : umap K V) : list K :=
  foldl (λ (keyVector : list K) '(key, value), keyVector ++ [key]) [] map.

End maplike.

Section stringlike.
Context {V : Type}.

(** [stevensStringLib::replaceSubstr], the collaborator of
    [eraseStringFromKeys]. *)
Variable replaceSubstr : string → string → string → string.

Definition erase_step (str : string) (returnMap : umap string V)
    (entry : string * V) : umap string V :=
  let '(key, value) := entry in
  let modifiedKey := replaceSubstr key str "" in
  emplace modifiedKey value returnMap.

Definition eraseStringFromKeys (map : umap string V) (str : string)
    : umap string V :=
  foldl (erase_step str) [] map.

(** The [while] loop of [createUniqueKeyString].  One unit of [fuel] pays
    for one evaluation of the loop condition; [None] means that the fuel
    ran out.  [integerSuffix] is an [int]: incrementing [INT_MAX] has no
    defined result. *)
Fixpoint suffix_loop (fuel : nat) (map : umap string V)
    (originalKeyString keyString : string) (integerSuffix : Z)
    : option (outcome string) :=
  match fuel with
  | O => None
  | S fuel' =>
      if contains keyString map then
        let keyString' := originalKeyString +:+ to_string integerSuffix in
        if decide (integerSuffix = INT_MAX) then Some (Undefined SignedOverflow)
        else suffix_loop fuel' map originalKeyString keyString' (integerSuffix + 1)
      else Some (Returned keyString)
  end.

(** [createUniqueKeyString] takes [map] by reference: the outcome holds
    the returned key and the container after the call. *)
Definition createUniqueKeyString (fuel : nat) (map : umap string V)
    (keyString algorithm : string) : option (outcome (string * umap string V)) :=
  if decide (algorithm = "integer concatenation") then
    match suffix_loop fuel map keyString keyString 0 with
    | Some (Returned key) => Some (Returned (key, map))
    | Some (Raised e) => Some (Raised e)
    | Some (Undefined f) => Some (Undefined f)
    | None => None
    end
  else Some (Returned (keyString, map)).

End stringlike.
Section prefixed.
Context {V : Type}.

(** [stevensStringLib::startsWith], the collaborator of
    [getPairsWhereKeysStartWith]. *)
Variable startsWith : string → string → bool.

Definition startsWith_step (str : string) (returnMap : umap string V)
    (entry : string * V) : umap string V :=
  let '(key, value) := entry in
  if startsWith key str then emplace key value returnMap else returnMap.

Definition getPairsWhereKeysStartWith (map : umap string V) (str : string)
    : umap string V :=
  foldl (startsWith_step str) [] map.

End prefixed.

End stevensMapLib.

(** ** Vocabulary of the statements *)

Section vocabulary.
Context {K V : Type} `{EqDecision K}.

(** The keys that [A] and [B] share, in the iteration order of [A]. *)
Definition sharedKeys (A B : umap K V) : list K :=
  filter (λ k, k ∈ UMap.keys B) (UMap.keys A).

End vocabulary.

(** ** Sample containers

    String keys and integer values; [+] on keys is concatenation, the
    value-initialised integer is [0]. *)

Abbreviation add_string_Z :=
  (stevensMapLib.addUnordered_maps String.append Z.add 0).

(** Two containers that share their only key. *)
Definition single_A : umap string Z := [("a", 1)].
Definition single_B : umap string Z := [("a", 2)].

(** [A] holds a shared key and, after it, that key doubled. *)
Definition doubled_A : umap string Z := [("a", 1); ("aa", 10)].
Definition doubled_B : umap string Z := [("a", 2)].

(** The same entries, with the doubled key iterated first. *)
Definition doubled_first_A : umap string Z := [("aa", 10); ("a", 1)].

(** Two containers with one shared key and one key each of their own. *)
Definition overlap_A : umap string Z := [("x", 1); ("y", 5)].
Definition overlap_B : umap string Z := [("y", 7); ("z", 2)].

(** The container of the example of [setNegativeValuesToZero], and the
    instance of the function for integer values. *)
Definition negatives_example : umap string Z :=
  [("a", 3); ("b", -9001); ("c", -4)].

Definition setNegativeValuesToZero_int {K : Type} `{EqDecision K}
    (map : umap K Z) : umap K Z :=
  stevensMapLib.setNegativeValuesToZero (λ value, bool_decide (value < 0)) 0 map.

(** The empty container. *)
Definition empty_map : umap string Z := [].

(** The containers of the example of [eraseStringFromKeys], and one with
    two keys that become the same key once ["style:"] is erased. *)
Definition style_example : umap string string :=
  [("style:textColor", "red"); ("style:backgroundColor", "black")].

Definition style_collision : umap string Z := [("style:a", 1); ("a", 2)].

(** The keys that the loop of [createUniqueKeyString] tries, in turn:
    the key itself, then the key with the suffixes 0, 1, 2, ... *)
Definition candidate (keyString : string) (n : nat) : string :=
  match n with
  | O => keyString
  | S i => keyString +:+ to_string (Z.of_nat i)
  end.

(** A container that holds [keyString] and [keyString] with each of the
    [suffixes] appended. *)
Definition suffixed_map (keyString : string) (suffixes : list Z)
    : umap string Z :=
  (keyString, 0) :: ((λ i, (keyString +:+ to_string i, 0)) <$> suffixes).

(** ["k"] with every suffix that an [int] can be: [2^32 + 1] entries. *)
Definition all_suffixes_map : umap string Z :=
  suffixed_map "k" (seqZ INT_MIN (2 ^ 32)).

(** ["k"] with the suffixes [0] to [INT_MAX - 1]: [2^31] entries. *)
Definition low_suffixes_map : umap string Z :=
  suffixed_map "k" (seqZ 0 INT_MAX).

(** ["k"] and ["k0"]. *)
Definition k_k0_map : umap string Z := [("k", 1); ("k0", 2)].

(** The container of the example of [getPairsWhereKeysStartWith]. *)
Definition section_example : umap string string :=
  [("style:textColor", "red"); ("style:backgroundColor", "black");
   ("sectionName", "header")].

(** * Facts

    ** The container operations *)

Module UMapFacts.
Import UMap.
Section facts.
Context {K V : Type} `{EqDecision K}.
Implicit Types (k : K) (v : V) (m : umap K V).


Lemma get_Some_elem k v m : get k m = Some v → (k, v) ∈ m.
Proof.
  induction m as [|[k' v'] m IH]; simpl; [done|].
  case_decide; intros ?; simplify_eq; [left | right; auto].
Qed.

Lemma get_None k m : get k m = None ↔ k ∉ keys m.
Proof.
  unfold keys. induction m as [|[k' v'] m IH]; simpl.
  - split; [intros _; apply not_elem_of_nil | done].
  - rewrite not_elem_of_cons. case_decide; simplify_eq.
    + split; [done | intros [? _]; done].
    + rewrite IH. split; [done | by intros [_ ?]].
Qed.

Lemma contains_true k m : contains k m = true ↔ k ∈ keys m.
Proof.
  unfold contains. destruct (get k m) eqn:E.
  - split; [intros _|done].
    destruct (decide (k ∈ keys m)) as [|Hn]; [done|].
    apply get_None in Hn. congruence.
  - apply get_None in E. split; [done|]. intros; contradiction.
Qed.

Lemma contains_false k m : contains k m = false ↔ k ∉ keys m.
Proof.
  rewrite <-contains_true. by destruct (contains k m); split; try done; intros Hn; destruct Hn.
Qed.

Lemma contains_get k m : contains k m = true ↔ is_Some (get k m).
Proof.
  unfold contains. by destruct (get k m); split; try done; intros [? ?].
Qed.

Lemma wf_get k v m : wf m → (k, v) ∈ m → get k m = Some v.
Proof.
  unfold wf, keys. induction m as [|[k' v'] m IH]; simpl.
  - intros _ Hin. by apply elem_of_nil in Hin.
  - rewrite NoDup_cons. intros [Hk Hm] Hin.
    apply elem_of_cons in Hin as [Heq|Hin].
    + simplify_eq. by rewrite decide_True.
    + rewrite decide_False; [auto|].
      intros ->. apply Hk. apply list_elem_of_fmap. by exists (k', v).
Qed.

Lemma get_assign k k' v m :
  get k' (assign k v m) = if decide (k' = k) then Some v else get k' m.
Proof.
  induction m as [|[k0 v0] m IH]; simpl.
  - by repeat case_decide.
  - repeat (case_decide; simpl; simplify_eq); rewrite ?IH; try done;
      by repeat (case_decide; simplify_eq).
Qed.

Lemma get_assign_eq k v m : get k (assign k v m) = Some v.
Proof. rewrite get_assign. by rewrite decide_True. Qed.

Lemma get_assign_ne k k' v m : k' ≠ k → get k' (assign k v m) = get k' m.
Proof. intros. rewrite get_assign. by rewrite decide_False. Qed.

Lemma contains_assign k k' v m :
  contains k' (assign k v m) = if decide (k' = k) then true else contains k' m.
Proof. unfold contains. rewrite get_assign. by case_decide. Qed.

Lemma keys_assign k v m :
  keys (assign k v m) = if contains k m then keys m else keys m ++ [k].
Proof.
  unfold contains, keys. induction m as [|[k0 v0] m IH]; csimpl; [done|].
  case_decide; csimpl; [done|].
  rewrite IH. by destruct (get k m).
Qed.

Lemma elem_of_keys_assign k k' v m :
  k' ∈ keys (assign k v m) ↔ k' = k ∨ k' ∈ keys m.
Proof.
  rewrite <-!contains_true, contains_assign.
  case_decide; [subst; split; auto|].
  split; [auto | by intros [?|?]].
Qed.

Lemma size_keys m : size m = length (keys m).
Proof. unfold size, keys. by rewrite length_fmap. Qed.

Lemma wf_nil : wf ([] : umap K V).
Proof. apply NoDup_nil_2. Qed.

Lemma wf_assign k v m : wf m → wf (assign k v m).
Proof.
  unfold wf. rewrite keys_assign. destruct (contains k m) eqn:E; [done|].
  intros Hm. apply NoDup_app. split_and!; [done| |apply NoDup_singleton].
  intros x Hx Hx'. apply list_elem_of_singleton in Hx' as ->.
  by apply contains_false in E.
Qed.

Lemma size_assign k v m :
  size (assign k v m) = if contains k m then size m else S (size m).
Proof.
  unfold size. rewrite <-!(length_fmap fst). fold (keys (assign k v m)) (keys m).
  rewrite keys_assign. destruct (contains k m); [done|].
  rewrite length_app. simpl. lia.
Qed.

Lemma get_app k m1 m2 :
  get k (m1 ++ m2) = match get k m1 with Some v => Some v | None => get k m2 end.
Proof.
  induction m1 as [|[k' v'] m1 IH]; simpl; [done|]. by case_decide.
Qed.

Lemma get_emplace k k' v m :
  get k' (emplace k v m) =
    match get k' m with
    | Some v' => Some v'
    | None => if decide (k' = k) then Some v else None
    end.
Proof.
  unfold emplace, contains. destruct (get k m) eqn:E.
  - destruct (get k' m) eqn:E'; [done|]. case_decide; congruence.
  - rewrite get_app. simpl. by destruct (get k' m).
Qed.

Lemma get_erase_ne k k' m : k' ≠ k → get k' (erase k m) = get k' m.
Proof.
  intros Hne. induction m as [|[k0 v0] m IH]; simpl; [done|].
  by repeat (case_decide; simpl; simplify_eq).
Qed.

Lemma keys_erase_not_in k m : k ∉ keys m → erase k m = m.
Proof.
  unfold keys. induction m as [|[k0 v0] m IH]; simpl; [done|].
  rewrite not_elem_of_cons. intros [? ?]. rewrite decide_False by done.
  by rewrite IH.
Qed.

Lemma get_erase_eq k m : wf m → get k (erase k m) = None.
Proof.
  unfold wf, keys. induction m as [|[k0 v0] m IH]; simpl; [done|].
  rewrite NoDup_cons. intros [Hk Hm]. case_decide; simplify_eq.
  - by apply get_None.
  - simpl. rewrite decide_False by done. auto.
Qed.

Lemma size_erase k m : contains k m = true → S (size (erase k m)) = size m.
Proof.
  unfold contains, size. induction m as [|[k0 v0] m IH]; simpl; [done|].
  case_decide; [done|]. intros Hc. simpl. by rewrite IH.
Qed.

Lemma wf_erase k m : wf m → wf (erase k m).
Proof.
  unfold wf, keys. induction m as [|[k0 v0] m IH]; simpl; [done|].
  rewrite NoDup_cons. intros [Hk Hm]. case_decide; [done|].
  simpl. apply NoDup_cons. split; [|auto].
  intros Hin. apply Hk.
  destruct (decide (k0 ∈ m.*1)) as [|Hn]; [done|].
  apply get_None in Hn. apply get_None in Hin; [done|].
  by rewrite get_erase_ne.
Qed.

End facts.
End UMapFacts.

(** ** [addUnordered_maps] *)

Module AddFacts.
Import UMap UMapFacts stevensMapLib.
Section add.
Context {K V : Type} `{EqDecision K}.
Variable addK : K → K → K.
Variable addV : V → V → V.
Variable dflt : V.
Implicit Types (k : K) (v : V) (A B AB : umap K V) (t : string) (o : bool).

Local Abbreviation step := (add_shared_step addK addV dflt).
Local Abbreviation sum A B k :=
  (addV (subscript dflt k A).1 (subscript dflt k B).1).

(** The key under which the first loop files a shared key. *)
Local Abbreviation filed t k := (if decide (t = "values") then k else addK k k).

Lemma subscript_present k v m : get k m = Some v → (subscript dflt k m).1 = v.
Proof. unfold subscript. by intros ->. Qed.

Lemma step_shared A B t o AB k v :
  contains k B = true →
  step A B t o AB (k, v) = assign (filed t k) (sum A B k) AB.
Proof. unfold add_shared_step. intros ->. by case_decide. Qed.

Lemma step_unshared A B t o AB k v :
  contains k B = false →
  step A B t o AB (k, v) = if o then AB else assign k v AB.
Proof. unfold add_shared_step. intros ->. by destruct o. Qed.

(** The second loop never overwrites: it fills in what [AB] lacks, and
    of two entries of [B] for a key the first one counts. *)
Lemma unmatched_get k AB B :
  get k (foldl add_unmatched_step AB B) =
    match get k AB with Some v => Some v | None => get k B end.
Proof.
  revert AB. induction B as [|[k0 v0] B IH]; intros AB; simpl.
  - by destruct (get k AB).
  - rewrite IH. unfold contains.
    destruct (get k0 AB) eqn:E0; simpl.
    + destruct (get k AB) eqn:E; [done|]. case_decide; congruence.
    + rewrite get_assign. case_decide; simplify_eq; [by rewrite E0|].
      by destruct (get k AB).
Qed.

(** A value that the first loop has filed under [k'] stays, as long as
    the rest of [A] files nothing else there. *)
Lemma shared_get_stable A B t o k' x A' AB :
  get k' AB = Some x →
  (∀ j, j ∈ keys A' → j ∉ keys B → o = false → j ≠ k') →
  (∀ j, j ∈ keys A' → j ∈ keys B → filed t j = k' → sum A B j = x) →
  get k' (foldl (step A B t o) AB A') = Some x.
Proof.
  revert AB. induction A' as [|[k0 v0] A' IH]; intros AB Hget Hun Hsh; [done|].
  change (keys ((k0, v0) :: A')) with (k0 :: keys A') in *.
  cbn [foldl]. apply IH.
  - destruct (contains k0 B) eqn:E0.
    + rewrite step_shared by done. rewrite get_assign.
      destruct (decide (k' = _)) as [Hk|Hk]; [|done].
      f_equal. apply Hsh; [left| |done].
      by apply contains_true.
    + rewrite step_unshared by done. destruct o; [done|].
      rewrite get_assign_ne; [done|]. intros ->.
      eapply Hun; [left| |done..]. by apply contains_false.
  - intros j Hj. apply Hun. by right.
  - intros j Hj. apply Hsh. by right.
Qed.

(** The entry that the first loop files for a shared key [k] of [A]:
    what counts is what the rest of the iteration does after [k]. *)
Lemma shared_get_filed A B t o k v A1 A2 AB :
  k ∈ keys B →
  (∀ j, j ∈ keys A2 → j ∉ keys B → o = false → j ≠ filed t k) →
  (∀ j, j ∈ keys A2 → j ∈ keys B → filed t j = filed t k →
        sum A B j = sum A B k) →
  get (filed t k) (foldl (step A B t o) AB (A1 ++ (k, v) :: A2))
  = Some (sum A B k).
Proof.
  intros HkB Hun Hsh. rewrite foldl_app. cbn [foldl].
  apply shared_get_stable; [|done..].
  rewrite step_shared by by apply contains_true.
  apply get_assign_eq.
Qed.

(** Where the keys of the first loop's result come from. *)
Lemma shared_keys_elem A B t o k' A' AB :
  k' ∈ keys (foldl (step A B t o) AB A') →
  k' ∈ keys AB
  ∨ (∃ j, j ∈ keys A' ∧ j ∈ keys B ∧ k' = filed t j)
  ∨ (o = false ∧ k' ∈ keys A' ∧ k' ∉ keys B).
Proof.
  revert AB. induction A' as [|[k0 v0] A' IH]; intros AB; [by left|].
  change (keys ((k0, v0) :: A')) with (k0 :: keys A').
  cbn [foldl]. intros Hin. apply IH in Hin as [Hin|[(j & ? & ? & ?)|(? & ? & ?)]].
  - destruct (contains k0 B) eqn:E0.
    + rewrite step_shared in Hin by done.
      apply elem_of_keys_assign in Hin as [->|?]; [|by left].
      right; left. exists k0. split_and!; [left|by apply contains_true|done].
    + rewrite step_unshared in Hin by done. destruct o eqn:Eo; [by left|].
      apply elem_of_keys_assign in Hin as [->|?]; [|by left].
      right; right. split_and!; [done|left|by apply contains_false].
  - right; left. exists j. split_and!; [by right|done..].
  - right; right. split_and!; [done|by right|done].
Qed.

(** With [omitKeysNotShared], the first loop files the shared keys one
    after the other. *)
Lemma omit_keys A B t A' AB :
  NoDup (keys AB ++ ((λ k, filed t k) <$> filter (λ k, k ∈ keys B) (keys A'))) →
  keys (foldl (step A B t true) AB A')
  = keys AB ++ ((λ k, filed t k) <$> filter (λ k, k ∈ keys B) (keys A')).
Proof.
  revert AB. induction A' as [|[k0 v0] A' IH]; intros AB Hnd.
  - cbn. by rewrite app_nil_r.
  - change (keys ((k0, v0) :: A')) with (k0 :: keys A') in *.
    cbn [foldl]. destruct (decide (k0 ∈ keys B)) as [Hin|Hnin].
    + rewrite filter_cons_True in * by done. rewrite fmap_cons in *.
      rewrite step_shared by by apply contains_true.
      assert (contains (filed t k0) AB = false) as Hfresh.
      { apply contains_false. intros Hc.
        apply NoDup_app in Hnd as (_ & Hdisj & _).
        apply (Hdisj _ Hc). left. }
      rewrite IH; rewrite keys_assign, Hfresh.
      * by rewrite <-app_assoc.
      * by rewrite <-app_assoc.
    + rewrite filter_cons_False in * by done.
      rewrite step_unshared by by apply contains_false.
      by apply IH.
Qed.

End add.
End AddFacts.

(** ** Strings *)

Section string_facts.
Implicit Types s t : string.

Lemma string_app_cons c s t : String c s +:+ t = String c (s +:+ t).
Proof. reflexivity. Qed.

Lemma string_length_app s t :
  String.length (s +:+ t) = (String.length s + String.length t)%nat.
Proof.
  induction s as [|c s IH]; [done|].
  rewrite string_app_cons. cbn. by rewrite IH.
Qed.

Lemma string_app_inv s1 s2 t1 t2 :
  s1 +:+ s2 = t1 +:+ t2 → String.length s1 = String.length t1 →
  s1 = t1 ∧ s2 = t2.
Proof.
  revert t1. induction s1 as [|c s1 IH]; intros [|d t1]; try done.
  rewrite !string_app_cons. cbn.
  intros [= -> Happ] [= Hlen]. by destruct (IH _ Happ Hlen) as [-> ->].
Qed.

Lemma string_double_inj s t : s +:+ s = t +:+ t → s = t.
Proof.
  intros Heq. apply (string_app_inv s s t t Heq).
  apply (f_equal String.length) in Heq. rewrite !string_length_app in Heq. lia.
Qed.

Lemma string_app_nonempty s t : t ≠ "" → s +:+ t ≠ s.
Proof.
  intros Ht Heq. apply (f_equal String.length) in Heq.
  rewrite string_length_app in Heq. destruct t; [done|]. cbn in Heq. lia.
Qed.

End string_facts.

(** ** Keys by position, [popRandom], [setNegativeValuesToZero] *)

Module AccessFacts.
Import UMap UMapFacts stevensMapLib.
Section access.
Context {K V : Type} `{EqDecision K}.
Implicit Types (k : K) (v : V) (m p : umap K V).

Lemma getRandomKey_nonempty m (rand : nat) :
  m ≠ [] → ∃ key, getRandomKey m rand = Returned key ∧ key ∈ keys m.
Proof.
  intros Hm. unfold getRandomKey.
  assert (size m ≠ 0%nat) as Hsize by (by destruct m).
  rewrite decide_False by done.
  destruct (lookup_lt_is_Some_2 (keys m) (rand `mod` size m)%nat) as [key Hkey].
  { rewrite <-size_keys. by apply Nat.mod_upper_bound. }
  rewrite Hkey. exists key. split; [done|]. by eapply list_elem_of_lookup_2.
Qed.

(** Overwriting the value of a key whose entry is found after [p]. *)
Lemma assign_app_fresh k v v' p m :
  k ∉ keys p → assign k v' (p ++ (k, v) :: m) = p ++ (k, v') :: m.
Proof.
  induction p as [|[k0 v0] p IH]; intros Hk; cbn.
  - by rewrite decide_True.
  - change (keys ((k0, v0) :: p)) with (k0 :: keys p) in Hk.
    apply not_elem_of_cons in Hk as [? ?].
    rewrite decide_False by done. by rewrite IH.
Qed.

(** The loop of [setNegativeValuesToZero], once the entries [p] have
    been visited and the entries [m] are still to come. *)
Lemma clamp_loop (lt0 : V → bool) (zero : V) p m :
  wf (p ++ m) →
  foldl (clamp_step lt0 zero) (p ++ m) (seq (length p) (length m))
  = p ++ ((λ e, (e.1, if lt0 e.2 then zero else e.2)) <$> m).
Proof.
  revert p. induction m as [|[k v] m IH]; intros p Hwf; [done|].
  cbn [length seq foldl]. unfold clamp_step at 2.
  rewrite list_lookup_middle by done.
  assert (k ∉ keys p) as Hfresh.
  { unfold wf, keys in Hwf. rewrite fmap_app in Hwf.
    apply NoDup_app in Hwf as (_ & Hdisj & _).
    intros Hin. apply (Hdisj _ Hin). left. }
  assert (∀ v', wf ((p ++ [(k, v')]) ++ m)) as Hwf'.
  { intros v'. rewrite <-app_assoc. unfold wf, keys in *.
    by rewrite fmap_app in *. }
  rewrite fmap_cons. cbn [fst snd].
  assert (∀ v', foldl (clamp_step lt0 zero) (p ++ (k, v') :: m)
                 (seq (S (length p)) (length m))
               = p ++ (k, v') :: ((λ e, (e.1, if lt0 e.2 then zero else e.2)) <$> m))
    as Hrest.
  { intros v'.
    replace (S (length p)) with (length (p ++ [(k, v')]))
      by (rewrite length_app; cbn; lia).
    rewrite (cons_middle (k, v') p m), app_assoc, IH by done.
    by rewrite <-app_assoc. }
  destruct (lt0 v); [|by apply Hrest].
  rewrite assign_app_fresh by done. by apply Hrest.
Qed.

Lemma setNegativeValuesToZero_fmap (lt0 : V → bool) (zero : V) m :
  wf m →
  setNegativeValuesToZero lt0 zero m
  = (λ e, (e.1, if lt0 e.2 then zero else e.2)) <$> m.
Proof. intros Hwf. apply (clamp_loop lt0 zero [] m Hwf). Qed.

Lemma get_clamped (lt0 : V → bool) (zero : V) k m :
  get k ((λ e, (e.1, if lt0 e.2 then zero else e.2)) <$> m)
  = (λ v, if lt0 v then zero else v) <$> get k m.
Proof.
  induction m as [|[k0 v0] m IH]; [done|].
  rewrite fmap_cons. cbn. by case_decide.
Qed.

Lemma keys_clamped (lt0 : V → bool) (zero : V) m :
  keys ((λ e, (e.1, if lt0 e.2 then zero else e.2)) <$> m) = keys m.
Proof. unfold keys. rewrite <-list_fmap_compose. by apply list_fmap_ext. Qed.

End access.
End AccessFacts.

(** ** String keys: [eraseStringFromKeys] and [createUniqueKeyString] *)

Module StringKeyFacts.
Import UMap UMapFacts stevensMapLib.

Section replace.
Import stevensStringLib.
Implicit Types s t r p : string.

Lemma prefix_app t s : String.prefix t (t +:+ s) = true.
Proof.
  induction t as [|c t IH]; [by destruct s|].
  rewrite string_app_cons. cbn. by destruct (Ascii.ascii_dec c c).
Qed.

Lemma replace_all_skip t r p s :
  replace_all t r (String.length p) (p +:+ s) = replace_all t r 0 s.
Proof. induction p as [|c p IH]; [done|]. by rewrite string_app_cons. Qed.

(** A leading occurrence is erased, and the rest of the string is
    treated in the same way. *)
Lemma replaceSubstr_leading t s :
  t ≠ "" → replaceSubstr (t +:+ s) t "" = replaceSubstr s t "".
Proof.
  intros Ht. unfold replaceSubstr. rewrite !decide_False by done.
  destruct t as [|c t]; [done|].
  rewrite string_app_cons. cbn [replace_all].
  rewrite <-string_app_cons, prefix_app.
  cbn [String.length]. rewrite Nat.sub_1_r. cbn [Nat.pred].
  apply replace_all_skip.
Qed.

(** A character at which no occurrence starts is kept. *)
Lemma replaceSubstr_other t c s :
  t ≠ "" → String.prefix t (String c s) = false →
  replaceSubstr (String c s) t "" = String c (replaceSubstr s t "").
Proof.
  intros Ht Hpre. unfold replaceSubstr. rewrite !decide_False by done.
  cbn [replace_all]. by rewrite Hpre.
Qed.

End replace.

Section string_keys.
Context {V : Type}.
Variable replaceSubstr : string → string → string → string.
Implicit Types (k str : string) (v : V) (m R : umap string V).

(** [emplace] keeps what the result holds already: of the entries whose
    keys become the same key, the first one in iteration order stays. *)
Lemma erase_loop_get str k' R m :
  get k' (foldl (erase_step replaceSubstr str) R m) =
    match get k' R with
    | Some v => Some v
    | None => get k' ((λ e, (replaceSubstr e.1 str "", e.2)) <$> m)
    end.
Proof.
  revert R. induction m as [|[k v] m IH]; intros R.
  - cbn. by destruct (get k' R).
  - cbn [foldl]. rewrite IH. unfold erase_step. rewrite get_emplace.
    rewrite fmap_cons. cbn. destruct (get k' R); [done|]. by case_decide.
Qed.

End string_keys.
End StringKeyFacts.

(** ** The loop of [createUniqueKeyString] *)

Module UniqueKeyFacts.
Import UMap UMapFacts stevensMapLib.

Section numerals.

Lemma pretty_N_go_length (x : N) (s : string) :
  (String.length s ≤ String.length (pretty_N_go x s))%nat.
Proof.
  revert s. induction (N.lt_wf_0 x) as [x _ IH]; intros s.
  destruct (decide (x = 0%N)) as [->|Hx]; [by rewrite pretty_N_go_0|].
  rewrite pretty_N_go_step by lia.
  etrans; [|apply IH; apply N.div_lt; lia]. cbn. lia.
Qed.

Lemma to_string_nonempty (i : Z) : to_string i ≠ "".
Proof.
  assert (∀ p : positive, pretty (N.pos p) ≠ "") as Hpos.
  { intros p Hp. unfold pretty, pretty_N in Hp.
    rewrite decide_False in Hp by done.
    rewrite pretty_N_go_step in Hp by lia.
    pose proof (pretty_N_go_length (N.pos p `div` 10)
                  (String (pretty_N_char (N.pos p `mod` 10)) "")) as Hlen.
    rewrite Hp in Hlen. cbn in Hlen. lia. }
  unfold to_string, pretty, pretty_Z. destruct i as [|p|p]; [done|apply Hpos|].
  unfold pretty_positive. destruct (pretty (N.pos p)); done.
Qed.

Lemma to_string_inj : Inj (=) (=) to_string.
Proof. unfold to_string. apply _. Qed.

Lemma candidate_inj (k : string) : Inj (=) (=) (candidate k).
Proof.
  intros [|i] [|j]; cbn; intros Heq; [done|..].
  - symmetry in Heq. by apply string_app_nonempty in Heq;
      [|apply to_string_nonempty].
  - by apply string_app_nonempty in Heq; [|apply to_string_nonempty].
  - apply (inj (String.app k)), to_string_inj, Nat2Z.inj in Heq. by subst.
Qed.

End numerals.

Section loop.
Context {V : Type}.
Implicit Types (k : string) (m : umap string V).

(** Pigeonhole: the candidates that the container holds are no more
    than its entries. *)
Lemma candidates_bounded k m (n : nat) :
  (∀ i, (i < n)%nat → candidate k i ∈ keys m) → (n ≤ size m)%nat.
Proof.
  intros Hall.
  trans (length (candidate k <$> seq 0%nat n)).
  { by rewrite length_fmap, length_seq. }
  rewrite size_keys. apply submseteq_length, NoDup_submseteq.
  - apply NoDup_fmap_2; [apply candidate_inj | apply NoDup_seq].
  - intros x (i & -> & Hi)%list_elem_of_fmap.
    apply elem_of_seq in Hi. apply Hall. lia.
Qed.

(** The loop, entered with the [n]-th candidate after the candidates
    before it were found in the container: it returns the first
    candidate that the container lacks. *)
Lemma suffix_loop_first_free k m (d n fuel : nat) :
  (d + n = size m)%nat → Z.of_nat (size m) ≤ INT_MAX → (d < fuel)%nat →
  (∀ i, (i < n)%nat → candidate k i ∈ keys m) →
  ∃ j : nat,
    suffix_loop fuel m k (candidate k n) (Z.of_nat n)
    = Some (Returned (candidate k j))
    ∧ (candidate k j ∉ keys m)
    ∧ (∀ i, (i < j)%nat → candidate k i ∈ keys m).
Proof.
  revert n fuel. induction d as [|d IH]; intros n fuel Hd Hmax Hfuel Hseen.
  - destruct fuel as [|fuel]; [lia|]. cbn [suffix_loop].
    destruct (contains (candidate k n) m) eqn:Hc.
    + apply contains_true in Hc.
      assert (S n ≤ size m)%nat; [|lia].
      apply (candidates_bounded k). intros i Hi.
      destruct (decide (i = n)) as [->|]; [done|]. apply Hseen. lia.
    + exists n. split_and!; [done|by apply contains_false|done].
  - destruct fuel as [|fuel]; [lia|]. cbn [suffix_loop].
    destruct (contains (candidate k n) m) eqn:Hc.
    + rewrite decide_False by lia.
      replace (Z.of_nat n + 1) with (Z.of_nat (S n)) by lia.
      apply (IH (S n) fuel); [lia..|].
      intros i Hi. destruct (decide (i = n)) as [->|].
      * by apply contains_true.
      * apply Hseen. lia.
    + exists n. split_and!; [done|by apply contains_false|done].
Qed.

Lemma suffix_loop_returns k m (fuel : nat) :
  Z.of_nat (size m) ≤ INT_MAX → (size m < fuel)%nat →
  ∃ j : nat,
    suffix_loop fuel m k k 0 = Some (Returned (candidate k j))
    ∧ (candidate k j ∉ keys m)
    ∧ (∀ i, (i < j)%nat → candidate k i ∈ keys m).
Proof.
  intros Hmax Hfuel.
  apply (suffix_loop_first_free k m (size m) 0 fuel); [lia|done..|].
  intros i Hi. lia.
Qed.

(** When the container holds the key with every suffix from
    [integerSuffix] to [INT_MAX - 1], the loop does not return: it runs
    out of fuel, or it increments [INT_MAX]. *)
Lemma suffix_loop_saturated k m (fuel : nat) (keyString : string) (s : Z) :
  0 ≤ s ≤ INT_MAX →
  contains keyString m = true →
  (∀ i, s ≤ i < INT_MAX → contains (k +:+ to_string i) m = true) →
  suffix_loop fuel m k keyString s = None
  ∨ suffix_loop fuel m k keyString s = Some (Undefined SignedOverflow).
Proof.
  revert keyString s. induction fuel as [|fuel IH]; intros keyString s Hs Hc Hall.
  { by left. }
  cbn [suffix_loop]. rewrite Hc. case_decide as Hmax; [by right|].
  apply IH; [lia| |].
  - apply Hall. lia.
  - intros i Hi. apply Hall. lia.
Qed.

(** With enough fuel it is the second. *)
Lemma suffix_loop_overflows k m (d : nat) (keyString : string) (s : Z) :
  0 ≤ s → s + Z.of_nat d = INT_MAX →
  contains keyString m = true →
  (∀ i, s ≤ i < INT_MAX → contains (k +:+ to_string i) m = true) →
  suffix_loop (S d) m k keyString s = Some (Undefined SignedOverflow).
Proof.
  revert keyString s. induction d as [|d IH]; intros keyString s Hs Hd Hc Hall.
  - cbn [suffix_loop]. rewrite Hc. by rewrite decide_True by lia.
  - cbn [suffix_loop]. rewrite Hc. rewrite decide_False by lia.
    apply IH; [lia..| |].
    + apply Hall. lia.
    + intros i Hi. apply Hall. lia.
Qed.

(** Without a bound on the container: the loop returns the first
    candidate that the container lacks, when that candidate is the key
    itself or carries a suffix below [INT_MAX]. *)
Lemma suffix_loop_reaches_free k m (j fuel : nat) :
  Z.of_nat j ≤ INT_MAX → (j < fuel)%nat →
  candidate k j ∉ keys m →
  (∀ i, (i < j)%nat → candidate k i ∈ keys m) →
  suffix_loop fuel m k k 0 = Some (Returned (candidate k j)).
Proof.
  intros Hmax Hfuel Hfree Hbefore.
  assert (∀ d n f, (n + d = j)%nat → (d < f)%nat →
            suffix_loop f m k (candidate k n) (Z.of_nat n)
            = Some (Returned (candidate k j))) as Hgen.
  { induction d as [|d IH]; intros n f Hn Hf.
    - destruct f as [|f]; [lia|]. cbn [suffix_loop].
      replace n with j by lia. by apply contains_false in Hfree as ->.
    - destruct f as [|f]; [lia|]. cbn [suffix_loop].
      assert (contains (candidate k n) m = true) as ->
        by (apply contains_true, Hbefore; lia).
      rewrite decide_False by lia.
      replace (Z.of_nat n + 1) with (Z.of_nat (S n)) by lia.
      apply (IH (S n) f); lia. }
  apply (Hgen j 0%nat fuel); lia.
Qed.

Lemma createUniqueKeyString_loop m k (fuel : nat) :
  createUniqueKeyString fuel m k "integer concatenation" =
    match suffix_loop fuel m k k 0 with
    | Some (Returned key) => Some (Returned (key, m))
    | Some (Raised e) => Some (Raised e)
    | Some (Undefined f) => Some (Undefined f)
    | None => None
    end.
Proof. unfold createUniqueKeyString. by rewrite decide_True. Qed.

End loop.

Section saturated.
Implicit Types (k : string) (suffixes : list Z).

Lemma suffixed_map_keys k suffixes :
  keys (suffixed_map k suffixes) = k :: ((λ i, k +:+ to_string i) <$> suffixes).
Proof.
  unfold suffixed_map, keys. rewrite fmap_cons, <-list_fmap_compose. done.
Qed.

Lemma suffixed_map_wf k suffixes : NoDup suffixes → wf (suffixed_map k suffixes).
Proof.
  intros Hnd. unfold wf. rewrite suffixed_map_keys. apply NoDup_cons. split.
  - intros (i & Hi & _)%list_elem_of_fmap. symmetry in Hi.
    by apply string_app_nonempty in Hi; [|apply to_string_nonempty].
  - apply NoDup_fmap_2; [|done].
    intros i j Hij. by apply (inj (String.app k)), to_string_inj in Hij.
Qed.

Lemma suffixed_map_size k suffixes :
  size (suffixed_map k suffixes) = S (length suffixes).
Proof. unfold suffixed_map, size. cbn [length]. by rewrite length_fmap. Qed.

Lemma suffixed_map_contains_key k suffixes :
  contains k (suffixed_map k suffixes) = true.
Proof. apply contains_true. rewrite suffixed_map_keys. left. Qed.

Lemma suffixed_map_contains_suffixed k suffixes (i : Z) :
  i ∈ suffixes → contains (k +:+ to_string i) (suffixed_map k suffixes) = true.
Proof.
  intros Hi. apply contains_true. rewrite suffixed_map_keys. right.
  apply list_elem_of_fmap. by exists i.
Qed.

(** On a container with the suffixes [0] to [INT_MAX - 1], no amount of
    fuel makes the loop return. *)
Lemma suffixed_map_never_returns k suffixes (fuel : nat) :
  (∀ i, 0 ≤ i < INT_MAX → i ∈ suffixes) →
  suffix_loop fuel (suffixed_map k suffixes) k k 0 = None
  ∨ suffix_loop fuel (suffixed_map k suffixes) k k 0
    = Some (Undefined SignedOverflow).
Proof.
  intros Hall. apply suffix_loop_saturated.
  - unfold INT_MAX. lia.
  - apply suffixed_map_contains_key.
  - intros i Hi. apply suffixed_map_contains_suffixed, Hall. lia.
Qed.

End saturated.
End UniqueKeyFacts.

(** ** [addUnordered_maps]: the whole result *)

Module AddResultFacts.
Import UMap UMapFacts stevensMapLib AddFacts.
Section add_result.
Context {K V : Type} `{EqDecision K}.
Variable addK : K → K → K.
Variable addV : V → V → V.
Implicit Types (k : K) (v : V) (A B AB : umap K V) (t : string) (o : bool).

Local Abbreviation step d := (add_shared_step addK addV d).
Local Abbreviation filed t k := (if decide (t = "values") then k else addK k k).

Lemma step_wf d A B t o AB e : wf AB → wf (step d A B t o AB e).
Proof.
  destruct e as [k v]. unfold add_shared_step. intros Hwf.
  repeat case_match; try done; by apply wf_assign.
Qed.

Lemma first_loop_wf d A B t o A' AB :
  wf AB → wf (foldl (step d A B t o) AB A').
Proof.
  revert AB. induction A' as [|e A' IH]; intros AB Hwf; [done|].
  cbn [foldl]. by apply IH, step_wf.
Qed.

Lemma second_loop_wf AB B : wf AB → wf (foldl add_unmatched_step AB B).
Proof.
  revert AB. induction B as [|[k v] B IH]; intros AB Hwf; [done|].
  cbn [foldl]. apply IH. unfold add_unmatched_step.
  case_match; [by apply wf_assign|done].
Qed.

(** The first loop never takes an entry away. *)
Lemma first_loop_keeps_keys d A B t o k A' AB :
  k ∈ keys AB → k ∈ keys (foldl (step d A B t o) AB A').
Proof.
  revert AB. induction A' as [|[k0 v0] A' IH]; intros AB Hin; [done|].
  cbn [foldl]. apply IH. unfold add_shared_step.
  repeat case_match; try done; apply elem_of_keys_assign; by right.
Qed.

(** What the first loop files for a key [j] of the part of [A] that it
    iterates. *)
Lemma first_loop_files d A B t o j A' AB :
  j ∈ keys A' →
  (j ∈ keys B → filed t j ∈ keys (foldl (step d A B t o) AB A'))
  ∧ (j ∉ keys B → o = false → j ∈ keys (foldl (step d A B t o) AB A')).
Proof.
  revert AB. induction A' as [|[k0 v0] A' IH]; intros AB Hin.
  { by apply elem_of_nil in Hin. }
  change (keys ((k0, v0) :: A')) with (k0 :: keys A') in Hin.
  cbn [foldl]. apply elem_of_cons in Hin as [->|Hin]; [|by apply IH].
  split.
  - intros HjB. apply first_loop_keeps_keys.
    rewrite step_shared by by apply contains_true.
    apply elem_of_keys_assign. by left.
  - intros HjB ->. apply first_loop_keeps_keys.
    rewrite step_unshared by by apply contains_false.
    apply elem_of_keys_assign. by left.
Qed.

(** The lookups after the first loop, for target ["values"]. *)
Lemma first_loop_values_get d A B o k A' AB :
  NoDup (keys A') →
  get k (foldl (step d A B "values" o) AB A') =
    match get k A' with
    | Some a =>
        if contains k B
        then Some (addV (subscript d k A).1 (subscript d k B).1)
        else if o then get k AB else Some a
    | None => get k AB
    end.
Proof.
  revert AB. induction A' as [|[k0 v0] A' IH]; intros AB Hnd; [done|].
  change (keys ((k0, v0) :: A')) with (k0 :: keys A') in Hnd.
  apply NoDup_cons in Hnd as [Hk0 Hnd].
  cbn [foldl get]. rewrite IH by done.
  destruct (decide (k = k0)) as [->|Hne].
  - apply get_None in Hk0. rewrite Hk0.
    destruct (contains k0 B) eqn:E0.
    + rewrite step_shared by done. rewrite decide_True by done.
      apply get_assign_eq.
    + rewrite step_unshared by done. destruct o; [done|]. apply get_assign_eq.
  - assert (get k (step d A B "values" o AB (k0, v0)) = get k AB) as ->.
    { unfold add_shared_step. rewrite decide_True by done.
      repeat case_match; try done; by apply get_assign_ne. }
    done.
Qed.

(** The first loop on entries that [B] does not share: they are copied,
    or left out. *)
Lemma first_loop_unshared_get d A B t k A' AB :
  NoDup (keys A') → (∀ j, j ∈ keys A' → j ∉ keys B) →
  get k (foldl (step d A B t false) AB A') =
    match get k A' with Some a => Some a | None => get k AB end.
Proof.
  revert AB. induction A' as [|[k0 v0] A' IH]; intros AB Hnd Hun; [done|].
  change (keys ((k0, v0) :: A')) with (k0 :: keys A') in *.
  apply NoDup_cons in Hnd as [Hk0 Hnd].
  cbn [foldl get]. rewrite IH; [|done|by intros j Hj; apply Hun; right].
  rewrite step_unshared by (apply contains_false, Hun; left).
  rewrite get_assign. destruct (decide (k = k0)) as [->|Hne]; [|done].
  apply get_None in Hk0. by rewrite Hk0.
Qed.

Lemma first_loop_unshared_omitted d A B t A' AB :
  (∀ j, j ∈ keys A' → j ∉ keys B) →
  foldl (step d A B t true) AB A' = AB.
Proof.
  revert AB. induction A' as [|[k0 v0] A' IH]; intros AB Hun; [done|].
  change (keys ((k0, v0) :: A')) with (k0 :: keys A') in *.
  cbn [foldl]. rewrite step_unshared by (apply contains_false, Hun; left).
  apply IH. intros j Hj. apply Hun. by right.
Qed.

(** [A[key]] and [B[key]] are never reads of a missing key: the value
    that [operator[]] would insert does not show in the result. *)
Lemma first_loop_no_default d1 d2 A B t o A' AB :
  (∀ j, j ∈ keys A' → j ∈ keys A) →
  foldl (step d1 A B t o) AB A' = foldl (step d2 A B t o) AB A'.
Proof.
  revert AB. induction A' as [|[k0 v0] A' IH]; intros AB Hsub; [done|].
  change (keys ((k0, v0) :: A')) with (k0 :: keys A') in *.
  cbn [foldl]. rewrite IH by (intros j Hj; apply Hsub; by right).
  f_equal. unfold add_shared_step, subscript.
  destruct (contains k0 B) eqn:E0; [|done].
  apply contains_get in E0 as [b ->].
  assert (contains k0 A = true) as [a ->]%contains_get; [|done].
  apply contains_true, Hsub. left.
Qed.

(** The lookups of the whole result, for target ["values"]. *)
Lemma values_get d A B o k :
  wf A →
  get k (addUnordered_maps addK addV d A B "values" o) =
    match get k A, get k B with
    | Some a, Some b => Some (addV a b)
    | Some a, None => if o then None else Some a
    | None, Some b => if o then None else Some b
    | None, None => None
    end.
Proof.
  intros Hwf. unfold addUnordered_maps.
  assert (get k (foldl (step d A B "values" o) [] A) =
            match get k A, get k B with
            | Some a, Some b => Some (addV a b)
            | Some a, None => if o then None else Some a
            | None, _ => None
            end) as Hfirst.
  { rewrite first_loop_values_get by done. unfold contains, subscript.
    destruct (get k A) as [a|]; [|done].
    destruct (get k B) as [b|]; [done|]. by destruct o. }
  destruct o; cbn [negb].
  - rewrite Hfirst. by destruct (get k A), (get k B).
  - rewrite unmatched_get, Hfirst. by destruct (get k A), (get k B).
Qed.

(** An entry of [A] whose key [B] lacks is copied; it stays when the
    rest of the iteration files nothing under its key. *)
Lemma unshared_get_copied d A B t k v A1 A2 AB :
  k ∉ keys B →
  (∀ j, j ∈ keys A2 → j ∉ keys B → j ≠ k) →
  (∀ j, j ∈ keys A2 → j ∈ keys B → filed t j ≠ k) →
  get k (foldl (step d A B t false) AB (A1 ++ (k, v) :: A2)) = Some v.
Proof.
  intros HkB Hun Hsh. rewrite foldl_app. cbn [foldl].
  apply shared_get_stable.
  - rewrite step_unshared by by apply contains_false. apply get_assign_eq.
  - intros j Hj HjB _. by apply Hun.
  - intros j Hj HjB Hfiled. by destruct (Hsh j Hj HjB).
Qed.

Lemma second_loop_keys k AB B :
  k ∈ keys (foldl add_unmatched_step AB B) ↔ k ∈ keys AB ∨ k ∈ keys B.
Proof.
  rewrite <-!contains_true. unfold contains. rewrite unmatched_get.
  destruct (get k AB), (get k B); split; auto; by intros [?|?].
Qed.

End add_result.
End AddResultFacts.

(** * The library against its specification *)

Import UMap UMapFacts stevensMapLib AddFacts AddResultFacts.

(** ** Combining two containers *)

Section add_claims.
Context {K V : Type} `{EqDecision K}.
Variable addK : K → K → K.
Variable addV : V → V → V.
Variable dflt : V.

(** C2.  With target ["keys"] the function returns what it returns with
    the default target ["keys and values"], for all containers and both
    values of [omitKeysNotShared]: the code tests the target against
    ["values"] only, and both strings take the other branch. *)
Theorem C2_keys_target_is_default (A B : umap K V) (omitKeysNotShared : bool) :
  addUnordered_maps addK addV dflt A B "keys" omitKeysNotShared
  = addUnordered_maps addK addV dflt A B "keys and values" omitKeysNotShared.
Proof.
  unfold addUnordered_maps.
  assert (∀ AB e, add_shared_step addK addV dflt A B "keys" omitKeysNotShared AB e
                  = add_shared_step addK addV dflt A B "keys and values"
                      omitKeysNotShared AB e) as Hstep.
  { intros AB [key value]. unfold add_shared_step.
    by rewrite !decide_False by discriminate. }
  assert (∀ l AB, foldl (add_shared_step addK addV dflt A B "keys"
                           omitKeysNotShared) AB l
                  = foldl (add_shared_step addK addV dflt A B "keys and values"
                             omitKeysNotShared) AB l) as ->; [|done].
  induction l as [|e l IH]; intros AB; [done|].
  cbn [foldl]. by rewrite Hstep, IH.
Qed.

(** C6.  When [A] and [B] share the key [k], with the values [a] and
    [b], the result for target ["values"] maps [k] to [a + b], whatever
    [omitKeysNotShared] is. *)
Theorem C6_values_target_adds_shared_values
    (A B : umap K V) (k : K) (a b : V) (omitKeysNotShared : bool) :
  get k A = Some a → get k B = Some b →
  get k (addUnordered_maps addK addV dflt A B "values" omitKeysNotShared)
  = Some (addV a b).
Proof.
  intros Ha Hb. unfold addUnordered_maps.
  assert (k ∈ keys B) as HkB.
  { apply contains_true, contains_get. by rewrite Hb. }
  assert (get k (foldl (add_shared_step addK addV dflt A B "values"
                          omitKeysNotShared) [] A) = Some (addV a b)) as Hfirst.
  { destruct (list_elem_of_split _ _ (get_Some_elem _ _ _ Ha)) as (A1 & A2 & HA).
    pose proof (shared_get_filed addK addV dflt A B "values" omitKeysNotShared
                  k a A1 A2 [] HkB) as Hfiled.
    rewrite <-HA, (subscript_present dflt k a A Ha),
      (subscript_present dflt k b B Hb) in Hfiled.
    revert Hfiled. destruct (decide ("values" = "values")); [|done].
    intros Hfiled. apply Hfiled.
    - intros j _ Hj _ Hjk. apply Hj. by rewrite Hjk.
    - intros j _ _ Hjk. rewrite Hjk.
      by rewrite (subscript_present dflt k a A Ha),
        (subscript_present dflt k b B Hb). }
  destruct omitKeysNotShared; cbn [negb]; [done|].
  by rewrite unmatched_get, Hfirst.
Qed.

End add_claims.

Section add_string_claims.
Context {V : Type}.
Variable addV : V → V → V.
Variable dflt : V.

Local Abbreviation add_maps := (addUnordered_maps String.append addV dflt).

(** C3, as the code has it.  With [omitKeysNotShared = true], for all
    containers [A] and [B] of any key type: for target ["values"] the
    keys of the result are exactly the keys that [A] and [B] share; for
    every other target (["keys"] and ["keys and values"] among them)
    they are exactly the keys [k + k] for the shared keys [k].  The size
    of the result is the number of shared keys for target ["values"],
    and for every other target when [k + k] determines [k] (as it does
    for strings). *)
Theorem C3_omit_keeps_one_entry_per_shared_key
    {K : Type} `{EqDecision K} (addK : K → K → K)
    (A B : umap K V) (addOperationTarget : string) :
  wf A →
  (addOperationTarget = "values" →
   ∀ k, k ∈ keys (addUnordered_maps addK addV dflt A B addOperationTarget true)
        ↔ k ∈ keys A ∧ k ∈ keys B)
  ∧ (addOperationTarget ≠ "values" →
     ∀ k', k' ∈ keys (addUnordered_maps addK addV dflt A B
                        addOperationTarget true)
           ↔ ∃ k, k ∈ keys A ∧ k ∈ keys B ∧ k' = addK k k)
  ∧ (addOperationTarget = "values"
     ∨ (∀ j j', addK j j = addK j' j' → j = j') →
     size (addUnordered_maps addK addV dflt A B addOperationTarget true)
     = length (sharedKeys A B)).
Proof.
  intros HA. unfold addUnordered_maps. cbn [negb].
  assert (∀ k', k' ∈ keys (foldl (add_shared_step addK addV dflt A B
                                    addOperationTarget true) [] A)
                ↔ ∃ k, k ∈ keys A ∧ k ∈ keys B
                     ∧ k' = if decide (addOperationTarget = "values")
                            then k else addK k k) as Hmem.
  { intros k'. split.
    - intros Hin.
      apply shared_keys_elem in Hin as [Hin|[(j & ? & ? & ?)|(? & _)]];
        [by apply elem_of_nil in Hin | by exists j | done].
    - intros (k & HkA & HkB & ->).
      exact (proj1 (first_loop_files addK addV dflt A B addOperationTarget
                      true k A [] HkA) HkB). }
  split_and!.
  - intros Ht k. rewrite Hmem. split.
    + intros (j & ? & ? & Hj). rewrite decide_True in Hj by done. by subst.
    + intros [? ?]. exists k. by rewrite decide_True.
  - intros Ht k'. rewrite Hmem. split.
    + intros (j & ? & ? & Hj). rewrite decide_False in Hj by done. by exists j.
    + intros (j & ? & ? & Hj). exists j. by rewrite decide_False.
  - intros Hinj.
    set (f := λ k : K,
           if decide (addOperationTarget = "values") then k else addK k k).
    assert (Inj (=) (=) f) as Hf.
    { intros x y. unfold f. case_decide as Ht; [done|].
      destruct Hinj as [?|Hinj]; [done|]. apply Hinj. }
    assert (NoDup (f <$> sharedKeys A B)) as Hnd.
    { apply NoDup_fmap_2; [done|]. by apply NoDup_filter. }
    pose proof (omit_keys addK addV dflt A B addOperationTarget A [] Hnd)
      as Hkeys.
    by rewrite size_keys, Hkeys, length_app, length_fmap.
Qed.

(** C5, as the code has it.  Let [k] be a shared key that is not the
    double [j + j] of a shared key, target ["keys and values"] and
    [omitKeysNotShared = false].  The result binds [k] to [B]'s value.
    It binds [k + k] to [A[k] + B[k]], unless a key of [A] that [B]
    lacks and that equals [k + k] is iterated after [k]: the entry of
    that key is then copied over the combined one, and the result binds
    [k + k] to [A]'s value for [k + k]. *)
Theorem C5_shared_key_doubled_and_kept
    (A1 A2 B : umap string V) (k : string) (a b : V) :
  wf (A1 ++ (k, a) :: A2) →
  get k B = Some b →
  Forall (λ j, k ≠ j +:+ j) (sharedKeys (A1 ++ (k, a) :: A2) B) →
  get k (add_maps (A1 ++ (k, a) :: A2) B "keys and values" false) = Some b
  ∧ ((k +:+ k ∈ keys A2 → k +:+ k ∈ keys B) →
     get (k +:+ k) (add_maps (A1 ++ (k, a) :: A2) B "keys and values" false)
     = Some (addV a b))
  ∧ (k +:+ k ∈ keys A2 → k +:+ k ∉ keys B →
     get (k +:+ k) (add_maps (A1 ++ (k, a) :: A2) B "keys and values" false)
     = get (k +:+ k) A2).
Proof.
  intros Hwf Hb Hdouble. set (A := A1 ++ (k, a) :: A2) in *.
  assert (k ∈ keys B) as HkB.
  { apply contains_true, contains_get. by rewrite Hb. }
  assert (get k A = Some a) as Ha.
  { apply wf_get; [done|]. unfold A. apply elem_of_app. right. left. }
  assert (NoDup (keys A1 ++ k :: keys A2)) as Hnd.
  { unfold wf, keys, A in Hwf. by rewrite fmap_app, fmap_cons in Hwf. }
  apply NoDup_app in Hnd as (_ & _ & Hnd). apply NoDup_cons in Hnd as [HkA2 HA2].
  unfold addUnordered_maps. cbn [negb]. rewrite !unmatched_get. split_and!.
  - destruct (get k (foldl _ [] A)) eqn:Hfirst; [|done].
    exfalso.
    assert (k ∈ keys (foldl (add_shared_step String.append addV dflt A B
                               "keys and values" false) [] A)) as Hin.
    { apply contains_true, contains_get. by rewrite Hfirst. }
    apply shared_keys_elem in Hin as [Hin|[(j & HjA & HjB & Hj)|(_ & _ & Hn)]].
    + by apply elem_of_nil in Hin.
    + revert Hj. destruct (decide ("keys and values" = "values")); [done|].
      rewrite Forall_forall in Hdouble.
      apply Hdouble. by apply list_elem_of_filter.
    + done.
  - intros Hlater.
    pose proof (shared_get_filed String.append addV dflt A B "keys and values"
                  false k a A1 A2 [] HkB) as Hfiled.
    fold A in Hfiled.
    rewrite (subscript_present dflt k a A Ha),
      (subscript_present dflt k b B Hb) in Hfiled.
    revert Hfiled. destruct (decide ("keys and values" = "values")); [done|].
    intros Hfiled. rewrite Hfiled; [done|..].
    + intros j Hj HjB _ ->. auto.
    + intros j _ _ Hjk. apply string_double_inj in Hjk. rewrite Hjk.
      by rewrite (subscript_present dflt k a A Ha),
        (subscript_present dflt k b B Hb).
  - intros Hin HninB.
    apply contains_true, contains_get in Hin as [c Hc].
    destruct (list_elem_of_split _ _ (get_Some_elem _ _ _ Hc))
      as (A3 & A4 & HA2eq).
    assert (NoDup (keys A3 ++ (k +:+ k) :: keys A4)) as Hnd'.
    { unfold keys in *. by rewrite HA2eq, fmap_app, fmap_cons in HA2. }
    apply NoDup_app in Hnd' as (_ & _ & Hnd').
    apply NoDup_cons in Hnd' as [HkkA4 _].
    assert (k ∉ keys A4) as HkA4.
    { intros Hin. apply HkA2. unfold keys in *.
      rewrite HA2eq, fmap_app, fmap_cons. apply elem_of_app. right. by right. }
    pose proof (unshared_get_copied String.append addV dflt A B
                  "keys and values" (k +:+ k) c (A1 ++ (k, a) :: A3) A4 []
                  HninB) as Hcopied.
    replace ((A1 ++ (k, a) :: A3) ++ (k +:+ k, c) :: A4) with A in Hcopied
      by (unfold A; rewrite HA2eq, <-app_assoc; done).
    rewrite Hcopied, Hc; [done|..].
    + by intros j Hj _ ->.
    + intros j Hj _. destruct (decide ("keys and values" = "values")); [done|].
      intros Hjk. apply string_double_inj in Hjk. by subst.
Qed.

End add_string_claims.

(** The claims on the sample containers. *)

Lemma C6_witness :
  get "y" overlap_A = Some 5 ∧ get "y" overlap_B = Some 7
  ∧ get "y" (add_string_Z overlap_A overlap_B "values" false) = Some 12.
Proof.
  split_and!; [reflexivity..|].
  apply (C6_values_target_adds_shared_values String.append Z.add 0
           overlap_A overlap_B "y" 5 7 false); reflexivity.
Defined.

Lemma C3_witness :
  wf overlap_A
  ∧ (∀ k, k ∈ keys (add_string_Z overlap_A overlap_B "values" true)
          ↔ k ∈ keys overlap_A ∧ k ∈ keys overlap_B)
  ∧ size (add_string_Z overlap_A overlap_B "values" true) = 1%nat.
Proof.
  assert (wf overlap_A) as Hwf by (unfold wf; compute_done).
  split; [exact Hwf|].
  destruct (C3_omit_keeps_one_entry_per_shared_key Z.add 0 String.append
              overlap_A overlap_B "values" Hwf) as (Hkeys & _ & Hsize).
  split; [exact (Hkeys eq_refl) | exact (Hsize (or_introl eq_refl))].
Defined.

(** C3 fails as stated: for target ["keys and values"] the shared key
    ["a"] is not a key of the result, which is [{"aa": 3}]. *)
Lemma C3_counterexample :
  add_string_Z single_A single_B "keys and values" true = [("aa", 3)]
  ∧ "a" ∈ sharedKeys single_A single_B
  ∧ "a" ∉ keys (add_string_Z single_A single_B "keys and values" true).
Proof.
  split_and!; [reflexivity|compute_done..].
Qed.

Lemma C5_witness :
  wf doubled_first_A
  ∧ get "a" doubled_B = Some 2
  ∧ get "a" (add_string_Z doubled_first_A doubled_B "keys and values" false)
    = Some 2
  ∧ get "aa" (add_string_Z doubled_first_A doubled_B "keys and values" false)
    = Some 3.
Proof.
  assert (wf doubled_first_A) as Hwf by (unfold wf; compute_done).
  assert (get "a" doubled_B = Some 2) as Hb by reflexivity.
  assert (Forall (λ j, "a" ≠ j +:+ j) (sharedKeys doubled_first_A doubled_B))
    as Hdouble by compute_done.
  split; [exact Hwf|]. split; [exact Hb|].
  destruct (C5_shared_key_doubled_and_kept Z.add 0 [("aa", 10)] [] doubled_B
              "a" 1 2 Hwf Hb Hdouble) as (Hk & Hkk & _).
  split; [exact Hk|]. apply Hkk. compute_done.
Defined.

(** C5 fails as stated: ["a"] is shared and is not the double of a
    shared key, yet the result binds ["aa"] to 10, the value of [A]'s own
    key ["aa"], and not to [1 + 2]. *)
Lemma C5_counterexample :
  get "a" doubled_A = Some 1 ∧ get "a" doubled_B = Some 2
  ∧ Forall (λ j, "a" ≠ j +:+ j) (sharedKeys doubled_A doubled_B)
  ∧ get ("a" +:+ "a") (add_string_Z doubled_A doubled_B "keys and values" false)
    = Some 10
  ∧ get ("a" +:+ "a") (add_string_Z doubled_A doubled_B "keys and values" false)
    ≠ Some (1 + 2).
Proof.
  split_and!; [reflexivity..|compute_done|reflexivity|done].
Qed.

(** ** Picking and popping keys *)

Import AccessFacts.

Section access_claims.
Context {K V : Type} `{EqDecision K}.
Variable dflt : V.

(** C1, as the code has it.  On an empty container none of the three
    functions raises [EmptyContainerError] or any other checked error:
    [getRandomKey] computes [rand() % 0], [getFirstKey] dereferences the
    end iterator, and [popRandom] stops in its call of [getRandomKey],
    which comes before its [erase]. *)
Theorem C1_empty_container_is_unguarded (map : umap K V) (rand : nat) :
  size map = 0%nat →
  getRandomKey map rand = Undefined ModuloByZero
  ∧ getFirstKey map = Undefined EndIteratorDereference
  ∧ popRandom dflt map rand = Undefined ModuloByZero.
Proof.
  intros Hsize. destruct map as [|e map]; [|done].
  by split_and!.
Qed.

(** C7.  On a container that is not empty, [popRandom] returns a pair
    [(key, value)] such that the container bound [key] to [value]; the
    container afterwards is one entry smaller, has no entry for [key],
    and binds every other key as before. *)
Theorem C7_popRandom_takes_one_entry_out (map : umap K V) (rand : nat) :
  wf map → map ≠ [] →
  ∃ key value map',
    popRandom dflt map rand = Returned ((key, value), map')
    ∧ get key map = Some value
    ∧ S (size map') = size map
    ∧ contains key map' = false
    ∧ ∀ k, k ≠ key → get k map' = get k map.
Proof.
  intros Hwf Hne.
  destruct (getRandomKey_nonempty map rand Hne) as (key & Hkey & Hin).
  assert (contains key map = true) as Hc by (by apply contains_true).
  destruct (proj1 (contains_get key map) Hc) as [value Hvalue].
  exists key, value, (erase key map). split_and!.
  - unfold popRandom, subscript. by rewrite Hkey, Hvalue.
  - done.
  - by apply size_erase.
  - unfold contains. by rewrite get_erase_eq.
  - intros k Hk. by apply get_erase_ne.
Qed.

End access_claims.

(** C8.  [setNegativeValuesToZero] keeps the keys of the container, binds
    to zero every key that was bound to a value less than zero, and
    leaves every other binding as it was; the container of the example
    becomes [{"a": 3, "b": 0, "c": 0}]. *)
Theorem C8_negative_values_become_zero :
  (∀ (K : Type) (HK : EqDecision K) (map : umap K Z),
      wf map →
      keys (setNegativeValuesToZero_int map) = keys map
      ∧ ∀ k v, get k map = Some v →
          (v < 0 → get k (setNegativeValuesToZero_int map) = Some 0)
          ∧ (0 ≤ v → get k (setNegativeValuesToZero_int map) = Some v))
  ∧ setNegativeValuesToZero_int negatives_example
    = [("a", 3); ("b", 0); ("c", 0)].
Proof.
  split; [|reflexivity].
  intros K HK map Hwf. unfold setNegativeValuesToZero_int.
  rewrite setNegativeValuesToZero_fmap by done.
  split; [exact (keys_clamped (λ v, bool_decide (v < 0)) 0 map)|].
  intros k v Hget.
  pose proof (get_clamped (λ v, bool_decide (v < 0)) 0 k map) as Hclamped.
  cbn beta in Hclamped. rewrite Hclamped, Hget. cbn. split; intros Hv.
  - by rewrite bool_decide_eq_true_2.
  - by rewrite bool_decide_eq_false_2 by lia.
Qed.

Lemma C1_witness :
  size empty_map = 0%nat
  ∧ getRandomKey empty_map 0 = Undefined ModuloByZero
  ∧ getFirstKey empty_map = Undefined EndIteratorDereference
  ∧ popRandom 0 empty_map 0 = Undefined ModuloByZero.
Proof.
  split; [reflexivity|].
  apply (C1_empty_container_is_unguarded 0 empty_map 0%nat). reflexivity.
Defined.

(** C1 fails as stated: on the empty container no call ends in
    [EmptyContainerError]. *)
Lemma C1_counterexample :
  getRandomKey empty_map 0 ≠ Raised EmptyContainerError
  ∧ getFirstKey empty_map ≠ Raised EmptyContainerError
  ∧ popRandom 0 empty_map 0 ≠ Raised EmptyContainerError.
Proof. by split_and!. Qed.

Lemma C7_witness :
  wf negatives_example ∧ negatives_example ≠ []
  ∧ ∃ key value map',
      popRandom 0 negatives_example 7 = Returned ((key, value), map')
      ∧ get key negatives_example = Some value
      ∧ S (size map') = size negatives_example
      ∧ contains key map' = false
      ∧ ∀ k, k ≠ key → get k map' = get k negatives_example.
Proof.
  assert (wf negatives_example) as Hwf by (unfold wf; compute_done).
  assert (negatives_example ≠ []) as Hne by discriminate.
  split; [exact Hwf|]. split; [exact Hne|].
  exact (C7_popRandom_takes_one_entry_out 0 negatives_example 7 Hwf Hne).
Defined.

Lemma C8_witness :
  wf negatives_example
  ∧ keys (setNegativeValuesToZero_int negatives_example) = ["a"; "b"; "c"]
  ∧ get "b" (setNegativeValuesToZero_int negatives_example) = Some 0
  ∧ get "a" (setNegativeValuesToZero_int negatives_example) = Some 3.
Proof.
  assert (wf negatives_example) as Hwf by (unfold wf; compute_done).
  split; [exact Hwf|].
  destruct (proj1 C8_negative_values_become_zero string _ negatives_example Hwf)
    as [Hkeys Hget].
  split; [exact Hkeys|]. split.
  - apply (Hget "b" (-9001)); [reflexivity|lia].
  - apply (Hget "a" 3); [reflexivity|lia].
Defined.

(** ** Keys that are strings *)

Import StringKeyFacts UniqueKeyFacts.

Section string_key_claims.
Context {V : Type}.

(** C4, as the code has it.  The keys of the result are the keys of the
    container after [replaceSubstr key str ""], which erases the
    occurrences of [str] wherever they are in the key.  When the keys of
    several entries become the same key, the result binds it to the value
    of the first of these entries in iteration order: [emplace] does not
    overwrite. *)
Theorem C4_erased_keys_first_entry_stays
    (replaceSubstr : string → string → string → string)
    (map : umap string V) (str : string) :
  (∀ k', k' ∈ keys (eraseStringFromKeys replaceSubstr map str)
         ↔ ∃ k, k ∈ keys map ∧ k' = replaceSubstr k str "")
  ∧ (∀ m1 k v m2,
       map = m1 ++ (k, v) :: m2 →
       (∀ j, j ∈ keys m1 → replaceSubstr j str "" ≠ replaceSubstr k str "") →
       get (replaceSubstr k str "") (eraseStringFromKeys replaceSubstr map str)
       = Some v).
Proof.
  unfold eraseStringFromKeys.
  set (renamed := λ m : umap string V,
         (λ e, (replaceSubstr e.1 str "", e.2)) <$> m).
  assert (∀ m, keys (renamed m) = (λ k, replaceSubstr k str "") <$> keys m)
    as Hkeys.
  { intros m. unfold renamed, keys. by rewrite <-!list_fmap_compose. }
  split.
  - intros k'. rewrite <-contains_true. unfold contains.
    rewrite erase_loop_get. cbn [get]. fold (renamed map).
    fold (contains k' (renamed map)). rewrite contains_true, Hkeys.
    rewrite list_elem_of_fmap. split; intros (k & ? & ?); by exists k.
  - intros m1 k v m2 -> Hfirst. rewrite erase_loop_get. cbn [get].
    fold (renamed (m1 ++ (k, v) :: m2)). unfold renamed.
    rewrite fmap_app, get_app, fmap_cons. fold (renamed m1).
    assert (get (replaceSubstr k str "") (renamed m1) = None) as ->.
    { apply get_None. rewrite Hkeys.
      intros (j & Hj & Hin)%list_elem_of_fmap. by apply (Hfirst j). }
    cbn. by rewrite decide_True.
Qed.

End string_key_claims.

(** The claims on the sample containers. *)

Example eraseStringFromKeys_example :
  eraseStringFromKeys stevensStringLib.replaceSubstr style_example "style:"
  ≡ₚ [("textColor", "red"); ("backgroundColor", "black")].
Proof. by vm_compute. Qed.

Example replaceSubstr_inner_occurrences :
  stevensStringLib.replaceSubstr "a-style:b-style:c" "style:" "" = "a-b-c".
Proof. reflexivity. Qed.

Lemma C4_witness :
  get "textColor"
    (eraseStringFromKeys stevensStringLib.replaceSubstr style_example "style:")
  = Some "red".
Proof.
  apply (proj2 (C4_erased_keys_first_entry_stays stevensStringLib.replaceSubstr
                  style_example "style:")
           [] "style:textColor" "red" [("style:backgroundColor", "black")]).
  - reflexivity.
  - intros j Hj. by apply elem_of_nil in Hj.
Defined.

(** C4 fails as stated: ["style:a"] and ["a"] both become ["a"], and the
    result binds ["a"] to 1, the value of the entry iterated first; the
    later entry, with the value 2, does not overwrite it. *)
Lemma C4_counterexample :
  eraseStringFromKeys stevensStringLib.replaceSubstr style_collision "style:"
  = [("a", 1)]
  ∧ get "a" (eraseStringFromKeys stevensStringLib.replaceSubstr
               style_collision "style:") ≠ Some 2.
Proof. split; [reflexivity|done]. Qed.

Lemma all_suffixes_saturated (i : Z) :
  0 ≤ i < INT_MAX → i ∈ seqZ INT_MIN (2 ^ 32).
Proof. intros Hi. apply elem_of_seqZ. unfold INT_MIN, INT_MAX in *. lia. Qed.

(** C9.  The code at the container that holds ["k"] and ["k"] with
    every [int] as a suffix, a container with no key twice: the call
    with the algorithm ["integer concatenation"] returns no key,
    whatever the fuel, and so no key that the container lacks; with fuel
    for [2^31] evaluations of the loop condition it ends in the
    increment of [INT_MAX]. *)
Theorem C9_saturated_container_gets_no_key :
  wf all_suffixes_map
  ∧ (¬ ∃ (fuel : nat) (key : string) (map' : umap string Z),
         createUniqueKeyString fuel all_suffixes_map "k" "integer concatenation"
         = Some (Returned (key, map')))
  ∧ createUniqueKeyString (S (Z.to_nat INT_MAX)) all_suffixes_map "k"
      "integer concatenation"
    = Some (Undefined SignedOverflow).
Proof.
  split_and!.
  - apply suffixed_map_wf, NoDup_seqZ.
  - intros (fuel & key & map' & Hrun).
    rewrite createUniqueKeyString_loop in Hrun.
    destruct (suffixed_map_never_returns "k" (seqZ INT_MIN (2 ^ 32)) fuel
                all_suffixes_saturated) as [Hloop|Hloop];
      unfold all_suffixes_map in Hrun; by rewrite Hloop in Hrun.
  - rewrite createUniqueKeyString_loop.
    rewrite (suffix_loop_overflows "k" all_suffixes_map); [done|done|..].
    + unfold INT_MAX. lia.
    + apply suffixed_map_contains_key.
    + intros i Hi. apply suffixed_map_contains_suffixed, all_suffixes_saturated.
      lia.
Qed.

(** C10.  The loop at the same container: it does not exit, whatever
    the fuel; after [2^31] evaluations of its condition it increments
    [INT_MAX]. *)
Theorem C10_saturated_container_loop_never_exits :
  (¬ ∃ (fuel : nat) (key : string),
       suffix_loop fuel all_suffixes_map "k" "k" 0 = Some (Returned key))
  ∧ suffix_loop (S (Z.to_nat INT_MAX)) all_suffixes_map "k" "k" 0
    = Some (Undefined SignedOverflow).
Proof.
  split.
  - intros (fuel & key & Hrun).
    destruct (suffixed_map_never_returns "k" (seqZ INT_MIN (2 ^ 32)) fuel
                all_suffixes_saturated) as [Hloop|Hloop];
      unfold all_suffixes_map in Hrun; by rewrite Hloop in Hrun.
  - apply suffix_loop_overflows.
    + done.
    + unfold INT_MAX. lia.
    + apply suffixed_map_contains_key.
    + intros i Hi. apply suffixed_map_contains_suffixed, all_suffixes_saturated.
      lia.
Qed.

(** Away from such containers the function does what its comment says:
    when one of [keyString], [keyString0], ..., [keyString2147483646] is
    not a key of the container, the first of them that is not is
    returned, whatever the size of the container. *)
Remark createUniqueKeyString_first_free
    {V : Type} (map : umap string V) (keyString : string) (j fuel : nat) :
  Z.of_nat j ≤ INT_MAX → (j < fuel)%nat →
  contains (candidate keyString j) map = false →
  (∀ i, (i < j)%nat → contains (candidate keyString i) map = true) →
  createUniqueKeyString fuel map keyString "integer concatenation"
  = Some (Returned (candidate keyString j, map)).
Proof.
  intros Hmax Hfuel Hfree Hbefore. rewrite createUniqueKeyString_loop.
  rewrite (suffix_loop_reaches_free keyString map j fuel); [done..| |].
  - by apply contains_false.
  - intros i Hi. by apply contains_true, Hbefore.
Qed.

(** The smallest container of that kind has [2^31] entries. *)
Remark suffix_counter_bound_is_tight :
  wf low_suffixes_map
  ∧ Z.of_nat (size low_suffixes_map) = INT_MAX + 1
  ∧ createUniqueKeyString (S (Z.to_nat INT_MAX)) low_suffixes_map "k"
      "integer concatenation"
    = Some (Undefined SignedOverflow).
Proof.
  split_and!.
  - apply suffixed_map_wf, NoDup_seqZ.
  - unfold low_suffixes_map. rewrite suffixed_map_size, length_seqZ.
    unfold INT_MAX. lia.
  - rewrite createUniqueKeyString_loop.
    rewrite (suffix_loop_overflows "k" low_suffixes_map); [done|done|..].
    + unfold INT_MAX. lia.
    + apply suffixed_map_contains_key.
    + intros i Hi. apply suffixed_map_contains_suffixed, elem_of_seqZ. lia.
Qed.

(** * Further properties of the library *)

(** ** [addUnordered_maps]: the whole result *)

Section add_extras.
Context {K V : Type} `{EqDecision K}.
Variable addK : K → K → K.
Variable addV : V → V → V.
Variable dflt : V.

(** X1.  The result of [addUnordered_maps] holds no key twice, whatever
    the inputs, the target and [omitKeysNotShared] are. *)
Theorem X1_add_result_is_a_container
    (A B : umap K V) (addOperationTarget : string) (omitKeysNotShared : bool) :
  wf (addUnordered_maps addK addV dflt A B addOperationTarget omitKeysNotShared).
Proof.
  unfold addUnordered_maps. destruct omitKeysNotShared; cbn [negb].
  - apply first_loop_wf, wf_nil.
  - apply second_loop_wf, first_loop_wf, wf_nil.
Qed.

(** X2.  When [A] and [B] share no key and [omitKeysNotShared] is
    false, the result binds each key of [A] to [A]'s value and each key
    of [B] to [B]'s value, and binds nothing else; the target does not
    matter. *)
Theorem X2_add_disjoint_is_union
    (A B : umap K V) (addOperationTarget : string) (k : K) :
  wf A → (∀ j, j ∈ keys A → j ∉ keys B) →
  get k (addUnordered_maps addK addV dflt A B addOperationTarget false)
  = match get k A with Some a => Some a | None => get k B end.
Proof.
  intros Hwf Hdisj. unfold addUnordered_maps. cbn [negb].
  rewrite unmatched_get, first_loop_unshared_get by done.
  by destruct (get k A).
Qed.

(** X3.  For target ["values"], the result binds a key of both
    containers to the sum of its two values; a key of one container only
    is bound to its value there when [omitKeysNotShared] is false and is
    left out when it is true; no other key is bound. *)
Theorem X3_add_values_lookup
    (A B : umap K V) (omitKeysNotShared : bool) (k : K) :
  wf A →
  get k (addUnordered_maps addK addV dflt A B "values" omitKeysNotShared) =
    match get k A, get k B with
    | Some a, Some b => Some (addV a b)
    | Some a, None => if omitKeysNotShared then None else Some a
    | None, Some b => if omitKeysNotShared then None else Some b
    | None, None => None
    end.
Proof.
  intros Hwf. unfold addUnordered_maps.
  assert (get k (foldl (add_shared_step addK addV dflt A B "values"
                          omitKeysNotShared) [] A) =
            match get k A, get k B with
            | Some a, Some b => Some (addV a b)
            | Some a, None => if omitKeysNotShared then None else Some a
            | None, _ => None
            end) as Hfirst.
  { rewrite first_loop_values_get by done. unfold contains, subscript.
    destruct (get k A) as [a|]; [|done].
    destruct (get k B) as [b|]; [done|]. by destruct omitKeysNotShared. }
  destruct omitKeysNotShared; cbn [negb].
  - rewrite Hfirst. by destruct (get k A), (get k B).
  - rewrite unmatched_get, Hfirst. by destruct (get k A), (get k B).
Qed.

(** X4.  For target ["values"] and a commutative [+] on values, the two
    containers can be swapped: both results bind the same keys to the
    same values. *)
Theorem X4_add_values_commutes
    (A B : umap K V) (omitKeysNotShared : bool) (k : K) :
  (∀ a b, addV a b = addV b a) → wf A → wf B →
  get k (addUnordered_maps addK addV dflt A B "values" omitKeysNotShared)
  = get k (addUnordered_maps addK addV dflt B A "values" omitKeysNotShared).
Proof.
  intros Hcomm HA HB. rewrite !values_get by done.
  destruct (get k A), (get k B); try done. by rewrite Hcomm.
Qed.

(** X5.  When [A] and [B] share no key and [omitKeysNotShared] is true,
    the result is empty. *)
Theorem X5_add_disjoint_omitted_is_empty
    (A B : umap K V) (addOperationTarget : string) :
  (∀ j, j ∈ keys A → j ∉ keys B) →
  addUnordered_maps addK addV dflt A B addOperationTarget true = [].
Proof.
  intros Hdisj. unfold addUnordered_maps. cbn [negb].
  by apply first_loop_unshared_omitted.
Qed.

(** X6.  With [omitKeysNotShared] false, the keys of the result are the
    keys of [A], the keys of [B] and, for a target other than
    ["values"], the keys [j + j] for the shared keys [j]: no key of an
    input is lost. *)
Theorem X6_add_keeps_every_key
    (A B : umap K V) (addOperationTarget : string) (k : K) :
  k ∈ keys (addUnordered_maps addK addV dflt A B addOperationTarget false)
  ↔ k ∈ keys A ∨ k ∈ keys B
    ∨ (addOperationTarget ≠ "values"
       ∧ ∃ j, j ∈ keys A ∧ j ∈ keys B ∧ k = addK j j).
Proof.
  unfold addUnordered_maps. cbn [negb]. rewrite second_loop_keys. split.
  - intros [Hin|Hin]; [|by right; left].
    apply shared_keys_elem in Hin as [Hin|[(j & HjA & HjB & Hj)|(_ & Hin & _)]].
    + by apply elem_of_nil in Hin.
    + destruct (decide (addOperationTarget = "values")); subst; [by left|].
      right; right. split; [done|]. by exists j.
    + by left.
  - intros [HkA|[HkB|(Ht & j & HjA & HjB & ->)]]; [|by right|].
    + destruct (decide (k ∈ keys B)) as [HkB|HkB]; [by right|]. left.
      exact (proj2 (first_loop_files addK addV dflt A B addOperationTarget
                      false k A [] HkA) HkB eq_refl).
    + left.
      pose proof (proj1 (first_loop_files addK addV dflt A B addOperationTarget
                           false j A [] HjA) HjB) as Hfiled.
      by rewrite decide_False in Hfiled.
Qed.

(** X7.  The value that [operator[]] inserts for a missing key does not
    show in the result: [A[key]] and [B[key]] are only read for keys
    that [A] and [B] hold. *)
Theorem X7_add_never_reads_missing_key
    (d1 d2 : V) (A B : umap K V) (addOperationTarget : string)
    (omitKeysNotShared : bool) :
  addUnordered_maps addK addV d1 A B addOperationTarget omitKeysNotShared
  = addUnordered_maps addK addV d2 A B addOperationTarget omitKeysNotShared.
Proof.
  unfold addUnordered_maps.
  by rewrite (first_loop_no_default addK addV d1 d2 A B) by done.
Qed.

End add_extras.

Lemma X2_witness :
  wf overlap_A ∧ (∀ j, j ∈ keys overlap_A → j ∉ keys single_B)
  ∧ get "y" (add_string_Z overlap_A single_B "keys and values" false) = Some 5
  ∧ get "a" (add_string_Z overlap_A single_B "keys and values" false) = Some 2.
Proof.
  assert (wf overlap_A) as Hwf by (unfold wf; compute_done).
  assert (∀ j, j ∈ keys overlap_A → j ∉ keys single_B) as Hdisj.
  { intros j Hj. apply (bool_decide_unpack _).
    revert j Hj. apply Forall_forall. compute_done. }
  split; [exact Hwf|]. split; [exact Hdisj|]. split.
  - exact (X2_add_disjoint_is_union String.append Z.add 0 overlap_A single_B
             "keys and values" "y" Hwf Hdisj).
  - exact (X2_add_disjoint_is_union String.append Z.add 0 overlap_A single_B
             "keys and values" "a" Hwf Hdisj).
Defined.

Lemma X3_witness :
  wf overlap_A
  ∧ get "x" (add_string_Z overlap_A overlap_B "values" false) = Some 1
  ∧ get "y" (add_string_Z overlap_A overlap_B "values" false) = Some 12
  ∧ get "z" (add_string_Z overlap_A overlap_B "values" true) = None.
Proof.
  assert (wf overlap_A) as Hwf by (unfold wf; compute_done).
  split; [exact Hwf|]. split_and!.
  - exact (X3_add_values_lookup String.append Z.add 0 overlap_A overlap_B
             false "x" Hwf).
  - exact (X3_add_values_lookup String.append Z.add 0 overlap_A overlap_B
             false "y" Hwf).
  - exact (X3_add_values_lookup String.append Z.add 0 overlap_A overlap_B
             true "z" Hwf).
Defined.

Lemma X4_witness :
  wf overlap_A ∧ wf overlap_B
  ∧ get "y" (add_string_Z overlap_A overlap_B "values" false)
    = get "y" (add_string_Z overlap_B overlap_A "values" false).
Proof.
  assert (wf overlap_A) as HA by (unfold wf; compute_done).
  assert (wf overlap_B) as HB by (unfold wf; compute_done).
  split; [exact HA|]. split; [exact HB|].
  exact (X4_add_values_commutes String.append Z.add 0 overlap_A overlap_B
           false "y" Z.add_comm HA HB).
Defined.

Lemma X5_witness :
  (∀ j, j ∈ keys overlap_A → j ∉ keys single_B)
  ∧ add_string_Z overlap_A single_B "values" true = [].
Proof.
  assert (∀ j, j ∈ keys overlap_A → j ∉ keys single_B) as Hdisj.
  { intros j Hj. apply (bool_decide_unpack _).
    revert j Hj. apply Forall_forall. compute_done. }
  split; [exact Hdisj|].
  exact (X5_add_disjoint_omitted_is_empty String.append Z.add 0
           overlap_A single_B "values" Hdisj).
Defined.

(** ** Entries and keys as vectors; picking a key *)

Module VectorFacts.
Import UMap UMapFacts stevensMapLib.
Section vectors.
Context {K V : Type} `{EqDecision K}.
Implicit Types (k : K) (v : V) (m : umap K V).

Lemma vecOfTuples_loop (acc : list (K * V)) m :
  foldl (λ returnVec '(key, value), returnVec ++ [(key, value)]) acc m
  = acc ++ m.
Proof.
  revert acc. induction m as [|[k v] m IH]; intros acc; cbn [foldl].
  - by rewrite app_nil_r.
  - by rewrite IH, <-app_assoc.
Qed.

Lemma keyVector_loop (acc : list K) m :
  foldl (λ (keyVector : list K) '(key, value), keyVector ++ [key]) acc m
  = acc ++ keys m.
Proof.
  revert acc. induction m as [|[k v] m IH]; intros acc; cbn [foldl].
  - by rewrite app_nil_r.
  - by rewrite IH, <-app_assoc.
Qed.

Lemma vecOfTuples_entries m : unordered_map_to_vecOfTuples m = m.
Proof. apply (vecOfTuples_loop [] m). Qed.

Lemma getKeyVector_keys m : getKeyVector m = keys m.
Proof. apply (keyVector_loop [] m). Qed.

Lemma wf_entries_NoDup m : wf m → NoDup m.
Proof. apply NoDup_fmap_1. Qed.

End vectors.
End VectorFacts.

Import VectorFacts.

Section vector_extras.
Context {K V : Type} `{EqDecision K}.

(** X8.  [unordered_map_to_vecOfTuples] returns one tuple for each
    entry: as many tuples as the container has entries, no tuple twice,
    and [(k, v)] is among them exactly when the container binds [k] to
    [v]. *)
Theorem X8_vecOfTuples_holds_the_entries (map : umap K V) :
  wf map →
  length (unordered_map_to_vecOfTuples map) = size map
  ∧ NoDup (unordered_map_to_vecOfTuples map)
  ∧ ∀ k v, (k, v) ∈ unordered_map_to_vecOfTuples map ↔ get k map = Some v.
Proof.
  intros Hwf. rewrite vecOfTuples_entries. split_and!.
  - done.
  - by apply wf_entries_NoDup.
  - intros k v. split; [by apply wf_get | apply get_Some_elem].
Qed.

(** X9.  [getKeyVector] returns the keys in iteration order: as many
    keys as the container has entries, a key is in the vector exactly
    when the container holds it, and the vector is the vector of the
    first components of [unordered_map_to_vecOfTuples]. *)
Theorem X9_getKeyVector_holds_the_keys (map : umap K V) :
  length (getKeyVector map) = size map
  ∧ (∀ k, k ∈ getKeyVector map ↔ contains k map = true)
  ∧ getKeyVector map = (unordered_map_to_vecOfTuples map).*1.
Proof.
  rewrite getKeyVector_keys, vecOfTuples_entries. split_and!.
  - by rewrite size_keys.
  - intros k. by rewrite contains_true.
  - done.
Qed.

(** X10.  On a container that is not empty, [getRandomKey] returns, for
    every value of [rand()], a key that the container holds: the key at
    position [rand() % size] of the iteration order. *)
Theorem X10_getRandomKey_returns_a_key (map : umap K V) (rand : nat) :
  map ≠ [] →
  ∃ key,
    getRandomKey map rand = Returned key
    ∧ getKeyVector map !! (rand `mod` size map)%nat = Some key
    ∧ contains key map = true.
Proof.
  intros Hne. rewrite getKeyVector_keys. unfold getRandomKey.
  assert (size map ≠ 0%nat) as Hsize by (by destruct map).
  rewrite decide_False by done.
  destruct (lookup_lt_is_Some_2 (keys map) (rand `mod` size map)%nat)
    as [key Hkey].
  { rewrite <-size_keys. by apply Nat.mod_upper_bound. }
  rewrite Hkey. exists key. split_and!; [done..|].
  apply contains_true. by eapply list_elem_of_lookup_2.
Qed.

(** X11.  On a container that is not empty, [getFirstKey] returns the
    first key of the iteration order, a key that the container holds;
    [getRandomKey] returns the same key whenever [rand()] is a multiple
    of the size. *)
Theorem X11_getFirstKey_returns_the_first_key (map : umap K V) :
  map ≠ [] →
  ∃ key,
    getFirstKey map = Returned key
    ∧ head (getKeyVector map) = Some key
    ∧ contains key map = true
    ∧ ∀ n : nat, getRandomKey map (n * size map) = Returned key.
Proof.
  intros Hne. rewrite getKeyVector_keys.
  destruct map as [|[key value] map]; [done|].
  exists key. split_and!; [done..| |].
  - apply contains_true. left.
  - intros n. unfold getRandomKey. rewrite decide_False by done.
    by rewrite Nat.Div0.mod_mul.
Qed.

End vector_extras.

Lemma X8_witness :
  wf negatives_example
  ∧ length (unordered_map_to_vecOfTuples negatives_example) = 3%nat
  ∧ NoDup (unordered_map_to_vecOfTuples negatives_example)
  ∧ ∀ k v, (k, v) ∈ unordered_map_to_vecOfTuples negatives_example
           ↔ get k negatives_example = Some v.
Proof.
  assert (wf negatives_example) as Hwf by (unfold wf; compute_done).
  split; [exact Hwf|].
  exact (X8_vecOfTuples_holds_the_entries negatives_example Hwf).
Defined.

Lemma X10_witness :
  negatives_example ≠ []
  ∧ ∃ key,
      getRandomKey negatives_example 7 = Returned key
      ∧ getKeyVector negatives_example !! (7 `mod` 3)%nat = Some key
      ∧ contains key negatives_example = true.
Proof.
  assert (negatives_example ≠ []) as Hne by discriminate.
  split; [exact Hne|].
  exact (X10_getRandomKey_returns_a_key negatives_example 7 Hne).
Defined.

Lemma X11_witness :
  negatives_example ≠ []
  ∧ ∃ key,
      getFirstKey negatives_example = Returned key
      ∧ head (getKeyVector negatives_example) = Some key
      ∧ contains key negatives_example = true
      ∧ ∀ n : nat, getRandomKey negatives_example (n * 3) = Returned key.
Proof.
  assert (negatives_example ≠ []) as Hne by discriminate.
  split; [exact Hne|].
  exact (X11_getFirstKey_returns_the_first_key negatives_example Hne).
Defined.

(** ** [getPairsWhereKeysStartWith] and [eraseStringFromKeys] *)

Module EmplaceFacts.
Import UMap UMapFacts stevensMapLib.
Section emplacing.
Context {K V : Type} `{EqDecision K}.
Implicit Types (k : K) (v : V) (m R : umap K V).

Lemma emplace_fresh k v m : k ∉ keys m → emplace k v m = m ++ [(k, v)].
Proof. intros Hk. unfold emplace. by apply contains_false in Hk as ->. Qed.

Lemma wf_emplace k v m : wf m → wf (emplace k v m).
Proof.
  intros Hwf. unfold emplace. destruct (contains k m) eqn:Hc; [done|].
  unfold wf, keys. rewrite fmap_app. apply NoDup_app. split_and!; [done| |].
  - intros x Hx Hx'. apply list_elem_of_singleton in Hx' as ->.
    by apply contains_false in Hc.
  - apply NoDup_singleton.
Qed.

Lemma size_emplace_le k v m : (size (emplace k v m) ≤ S (size m))%nat.
Proof.
  unfold emplace, size. destruct (contains k m); [lia|].
  rewrite length_app. cbn. lia.
Qed.

End emplacing.

Section string_filters.
Context {V : Type}.
Implicit Types (k str : string) (v : V) (m R : umap string V).

Section starts.
Variable startsWith : string → string → bool.

Lemma startsWith_loop_get str k R m :
  get k (foldl (startsWith_step startsWith str) R m) =
    match get k R with
    | Some v => Some v
    | None => if startsWith k str then get k m else None
    end.
Proof.
  revert R. induction m as [|[k0 v0] m IH]; intros R.
  - cbn. by destruct (get k R), (startsWith k str).
  - cbn [foldl get]. rewrite IH. unfold startsWith_step.
    destruct (startsWith k0 str) eqn:E0.
    + rewrite get_emplace. destruct (get k R); [done|].
      destruct (decide (k = k0)) as [->|]; [by rewrite E0|done].
    + destruct (get k R); [done|].
      destruct (decide (k = k0)) as [->|]; [by rewrite E0|done].
Qed.

Lemma startsWith_loop_wf str R m :
  wf R → wf (foldl (startsWith_step startsWith str) R m).
Proof.
  revert R. induction m as [|[k0 v0] m IH]; intros R Hwf; [done|].
  cbn [foldl]. apply IH. unfold startsWith_step.
  case_match; [by apply wf_emplace|done].
Qed.

Lemma startsWith_loop_filter str R m :
  wf (R ++ m) →
  foldl (startsWith_step startsWith str) R m
  = R ++ filter (λ e, startsWith e.1 str = true) m.
Proof.
  revert R. induction m as [|[k0 v0] m IH]; intros R Hwf.
  - cbn. by rewrite app_nil_r.
  - cbn [foldl]. unfold startsWith_step.
    assert (k0 ∉ keys R) as Hfresh.
    { unfold wf, keys in Hwf. rewrite fmap_app in Hwf.
      apply NoDup_app in Hwf as (_ & Hdisj & _).
      intros Hin. apply (Hdisj _ Hin). left. }
    destruct (startsWith k0 str) eqn:E0.
    + rewrite emplace_fresh by done.
      rewrite IH by (by rewrite <-app_assoc).
      rewrite filter_cons_True by done. by rewrite <-app_assoc.
    + rewrite filter_cons_False by (cbn; congruence).
      apply IH. unfold wf, keys in *. rewrite fmap_app in *.
      rewrite fmap_cons in Hwf. apply NoDup_app in Hwf as (? & Hdisj & Hm).
      apply NoDup_cons in Hm as [_ Hm]. apply NoDup_app. split_and!; [done| |done].
      intros x Hx Hx'. apply (Hdisj x Hx). by right.
Qed.

Lemma filter_all {A : Type} (P : A → Prop) `{!∀ x, Decision (P x)}
    (l : list A) :
  Forall P l → filter P l = l.
Proof.
  induction 1 as [|x l Hx _ IH]; [done|].
  rewrite filter_cons_True by done. by rewrite IH.
Qed.

(** Selecting from a selection: every entry is selected again. *)
Lemma startsWith_loop_twice str m :
  foldl (startsWith_step startsWith str) []
    (foldl (startsWith_step startsWith str) [] m)
  = foldl (startsWith_step startsWith str) [] m.
Proof.
  set (r := foldl (startsWith_step startsWith str) [] m).
  assert (wf r) as Hwf by apply startsWith_loop_wf, wf_nil.
  rewrite (startsWith_loop_filter str [] r Hwf). cbn [app].
  apply filter_all, Forall_forall. intros [k v] Hin. cbn.
  apply (wf_get k v r Hwf) in Hin. unfold r in Hin.
  rewrite startsWith_loop_get in Hin. cbn [get] in Hin.
  by destruct (startsWith k str).
Qed.

End starts.

Section erasing.
Variable replaceSubstr : string → string → string → string.

Lemma erase_loop_wf str R m :
  wf R → wf (foldl (erase_step replaceSubstr str) R m).
Proof.
  revert R. induction m as [|[k0 v0] m IH]; intros R Hwf; [done|].
  cbn [foldl]. apply IH. by apply wf_emplace.
Qed.

Lemma erase_loop_size str R m :
  (size (foldl (erase_step replaceSubstr str) R m) ≤ size R + size m)%nat.
Proof.
  revert R. induction m as [|[k0 v0] m IH]; intros R.
  { unfold size. cbn. lia. }
  cbn [foldl]. etrans; [apply IH|].
  pose proof (size_emplace_le (replaceSubstr k0 str "") v0 R) as Hle.
  unfold erase_step. unfold size in *. cbn [length]. lia.
Qed.

Lemma erase_loop_renamed str R m :
  NoDup (keys R ++ ((λ k, replaceSubstr k str "") <$> keys m)) →
  foldl (erase_step replaceSubstr str) R m
  = R ++ ((λ e, (replaceSubstr e.1 str "", e.2)) <$> m).
Proof.
  revert R. induction m as [|[k0 v0] m IH]; intros R Hnd.
  - cbn. by rewrite app_nil_r.
  - change (keys ((k0, v0) :: m)) with (k0 :: keys m) in Hnd.
    rewrite fmap_cons in Hnd. cbn [foldl]. unfold erase_step at 2.
    assert (replaceSubstr k0 str "" ∉ keys R) as Hfresh.
    { apply NoDup_app in Hnd as (_ & Hdisj & _).
      intros Hin. apply (Hdisj _ Hin). left. }
    rewrite emplace_fresh by done. rewrite IH.
    + rewrite fmap_cons. by rewrite <-app_assoc.
    + unfold keys at 1. rewrite fmap_app. cbn [fmap list_fmap fst].
      by rewrite <-app_assoc.
Qed.

End erasing.
End string_filters.
End EmplaceFacts.

Import EmplaceFacts.

Section string_filter_extras.
Context {V : Type}.

(** X12.  [getPairsWhereKeysStartWith] keeps the binding of every key
    for which [startsWith(key, str)] holds and no other binding, and its
    result holds no key twice. *)
Theorem X12_startsWith_lookup
    (startsWith : string → string → bool)
    (map : umap string V) (str : string) :
  (∀ k, get k (getPairsWhereKeysStartWith startsWith map str)
        = if startsWith k str then get k map else None)
  ∧ wf (getPairsWhereKeysStartWith startsWith map str).
Proof.
  unfold getPairsWhereKeysStartWith. split.
  - intros k. by rewrite startsWith_loop_get.
  - apply startsWith_loop_wf, wf_nil.
Qed.

(** X13.  The entries of the result of [getPairsWhereKeysStartWith] are
    the entries of the input whose key satisfies [startsWith(key, str)],
    each of them once, in whatever order the result is iterated; so the
    result has no more entries than the input. *)
Theorem X13_startsWith_is_a_filter
    (startsWith : string → string → bool)
    (map : umap string V) (str : string) :
  wf map →
  getPairsWhereKeysStartWith startsWith map str
  ≡ₚ filter (λ e, startsWith e.1 str = true) map
  ∧ (size (getPairsWhereKeysStartWith startsWith map str) ≤ size map)%nat.
Proof.
  intros Hwf. unfold getPairsWhereKeysStartWith.
  rewrite (startsWith_loop_filter startsWith str [] map Hwf).
  split; [done|]. apply length_filter.
Qed.

(** X14.  Selecting by the same prefix a second time changes no
    binding: the second result binds the keys that the first result
    binds, to the same values, and has the same entries. *)
Theorem X14_startsWith_idempotent
    (startsWith : string → string → bool)
    (map : umap string V) (str : string) :
  (∀ k, get k (getPairsWhereKeysStartWith startsWith
                 (getPairsWhereKeysStartWith startsWith map str) str)
        = get k (getPairsWhereKeysStartWith startsWith map str))
  ∧ getPairsWhereKeysStartWith startsWith
      (getPairsWhereKeysStartWith startsWith map str) str
    ≡ₚ getPairsWhereKeysStartWith startsWith map str.
Proof.
  unfold getPairsWhereKeysStartWith. split.
  - intros k. rewrite !startsWith_loop_get. cbn [get].
    by destruct (startsWith k str).
  - by rewrite startsWith_loop_twice.
Qed.

(** X15.  The result of [eraseStringFromKeys] holds no key twice and has
    no more entries than the input, whatever [replaceSubstr] does to the
    keys. *)
Theorem X15_erase_result_is_a_container
    (replaceSubstr : string → string → string → string)
    (map : umap string V) (str : string) :
  wf (eraseStringFromKeys replaceSubstr map str)
  ∧ (size (eraseStringFromKeys replaceSubstr map str) ≤ size map)%nat.
Proof.
  unfold eraseStringFromKeys. split.
  - apply erase_loop_wf, wf_nil.
  - apply (erase_loop_size replaceSubstr str [] map).
Qed.

(** X16.  When the keys after [replaceSubstr key str ""] are pairwise
    distinct, [eraseStringFromKeys] renames the keys and does nothing
    else: the entries of the result are the entries of the input, each
    with its value and its renamed key; no entry is lost, and the value
    of a key is found under the renamed key. *)
Theorem X16_erase_without_collision_renames
    (replaceSubstr : string → string → string → string)
    (map : umap string V) (str : string) :
  NoDup ((λ k, replaceSubstr k str "") <$> keys map) →
  eraseStringFromKeys replaceSubstr map str
  ≡ₚ (λ e, (replaceSubstr e.1 str "", e.2)) <$> map
  ∧ size (eraseStringFromKeys replaceSubstr map str) = size map
  ∧ ∀ k v, get k map = Some v →
           get (replaceSubstr k str "")
             (eraseStringFromKeys replaceSubstr map str) = Some v.
Proof.
  intros Hnd. unfold eraseStringFromKeys.
  rewrite (erase_loop_renamed replaceSubstr str [] map) by done.
  cbn [app]. split_and!.
  - done.
  - unfold size. by rewrite length_fmap.
  - intros k v Hget. apply wf_get.
    + unfold wf, keys in *. rewrite <-list_fmap_compose in Hnd.
      rewrite <-list_fmap_compose. exact Hnd.
    + apply get_Some_elem in Hget. apply list_elem_of_fmap. by exists (k, v).
Qed.

End string_filter_extras.

Example getPairsWhereKeysStartWith_example :
  getPairsWhereKeysStartWith stevensStringLib.startsWith section_example "style:"
  ≡ₚ [("style:textColor", "red"); ("style:backgroundColor", "black")].
Proof. by vm_compute. Qed.

Lemma X13_witness :
  wf section_example
  ∧ getPairsWhereKeysStartWith stevensStringLib.startsWith section_example
      "style:"
    ≡ₚ [("style:textColor", "red"); ("style:backgroundColor", "black")]
  ∧ (size (getPairsWhereKeysStartWith stevensStringLib.startsWith
             section_example "style:") ≤ 3)%nat.
Proof.
  assert (wf section_example) as Hwf by (unfold wf; compute_done).
  split; [exact Hwf|].
  exact (X13_startsWith_is_a_filter stevensStringLib.startsWith
           section_example "style:" Hwf).
Defined.

Lemma X16_witness :
  NoDup ((λ k, stevensStringLib.replaceSubstr k "style:" "")
           <$> keys style_example)
  ∧ get "textColor"
      (eraseStringFromKeys stevensStringLib.replaceSubstr style_example
         "style:")
    = Some "red"
  ∧ size (eraseStringFromKeys stevensStringLib.replaceSubstr style_example
            "style:") = 2%nat.
Proof.
  assert (NoDup ((λ k, stevensStringLib.replaceSubstr k "style:" "")
                   <$> keys style_example)) as Hnd by compute_done.
  split; [exact Hnd|].
  destruct (X16_erase_without_collision_renames stevensStringLib.replaceSubstr
              style_example "style:" Hnd) as (_ & Hsize & Hget).
  split; [|exact Hsize].
  exact (Hget "style:textColor" "red" eq_refl).
Defined.

(** ** [setNegativeValuesToZero] *)

Section clamp_extras.
Context {K : Type} `{EqDecision K}.

Local Abbreviation clamped :=
  (λ e : K * Z, (e.1, if bool_decide (e.2 < 0) then 0 else e.2)).

Lemma clamp_int_fmap (map : umap K Z) :
  wf map → setNegativeValuesToZero_int map = clamped <$> map.
Proof.
  intros Hwf.
  exact (setNegativeValuesToZero_fmap (λ v, bool_decide (v < 0)) 0 map Hwf).
Qed.

Lemma clamp_int_keys (map : umap K Z) : keys (clamped <$> map) = keys map.
Proof. exact (keys_clamped (λ v, bool_decide (v < 0)) 0 map). Qed.

Lemma clamp_int_get (k : K) (map : umap K Z) :
  get k (clamped <$> map)
  = (λ v, if bool_decide (v < 0) then 0 else v) <$> get k map.
Proof. exact (get_clamped (λ v, bool_decide (v < 0)) 0 k map). Qed.

(** X17.  After [setNegativeValuesToZero] the container has as many
    entries as before, holds no key twice, and binds no key to a value
    less than zero. *)
Theorem X17_no_negative_value_is_left (map : umap K Z) :
  wf map →
  size (setNegativeValuesToZero_int map) = size map
  ∧ wf (setNegativeValuesToZero_int map)
  ∧ ∀ k v, get k (setNegativeValuesToZero_int map) = Some v → 0 ≤ v.
Proof.
  intros Hwf. rewrite clamp_int_fmap by done. split_and!.
  - unfold size. by rewrite length_fmap.
  - unfold wf. by rewrite clamp_int_keys.
  - intros k v. rewrite clamp_int_get.
    destruct (get k map) as [v0|]; [|done]. cbn. intros [= <-].
    case_bool_decide; lia.
Qed.

(** X18.  [setNegativeValuesToZero] is idempotent. *)
Theorem X18_clamping_twice_is_clamping_once (map : umap K Z) :
  wf map →
  setNegativeValuesToZero_int (setNegativeValuesToZero_int map)
  = setNegativeValuesToZero_int map.
Proof.
  intros Hwf. rewrite (clamp_int_fmap map) by done.
  rewrite clamp_int_fmap by (unfold wf; by rewrite clamp_int_keys).
  rewrite <-list_fmap_compose. apply list_fmap_ext.
  intros _ [k v] _. cbn. f_equal. repeat case_bool_decide; lia.
Qed.

(** X19.  A container without a value less than zero is left as it
    is. *)
Theorem X19_nothing_to_clamp (map : umap K Z) :
  wf map → (∀ k v, get k map = Some v → 0 ≤ v) →
  setNegativeValuesToZero_int map = map.
Proof.
  intros Hwf Hpos. rewrite clamp_int_fmap by done.
  rewrite <-(list_fmap_id map) at 2. apply list_fmap_ext.
  intros i [k v] Hi. cbn. f_equal.
  assert (0 ≤ v) as Hv.
  { apply (Hpos k), wf_get; [done|]. by eapply list_elem_of_lookup_2. }
  by rewrite bool_decide_eq_false_2 by lia.
Qed.

End clamp_extras.

Lemma X17_witness :
  wf negatives_example
  ∧ size (setNegativeValuesToZero_int negatives_example) = 3%nat
  ∧ wf (setNegativeValuesToZero_int negatives_example)
  ∧ ∀ k v, get k (setNegativeValuesToZero_int negatives_example) = Some v
           → 0 ≤ v.
Proof.
  assert (wf negatives_example) as Hwf by (unfold wf; compute_done).
  split; [exact Hwf|].
  exact (X17_no_negative_value_is_left negatives_example Hwf).
Defined.

Lemma X18_witness :
  wf negatives_example
  ∧ setNegativeValuesToZero_int (setNegativeValuesToZero_int negatives_example)
    = setNegativeValuesToZero_int negatives_example.
Proof.
  assert (wf negatives_example) as Hwf by (unfold wf; compute_done).
  split; [exact Hwf|].
  exact (X18_clamping_twice_is_clamping_once negatives_example Hwf).
Defined.

Lemma X19_witness :
  wf overlap_A ∧ (∀ k v, get k overlap_A = Some v → 0 ≤ v)
  ∧ setNegativeValuesToZero_int overlap_A = overlap_A.
Proof.
  assert (wf overlap_A) as Hwf by (unfold wf; compute_done).
  assert (∀ k v, get k overlap_A = Some v → 0 ≤ v) as Hpos.
  { intros k v Hget. apply get_Some_elem in Hget.
    revert Hget. change (0 ≤ v) with (0 ≤ (k, v).2). generalize (k, v).
    apply Forall_forall. compute_done. }
  split; [exact Hwf|]. split; [exact Hpos|].
  exact (X19_nothing_to_clamp overlap_A Hwf Hpos).
Defined.

(** ** [createUniqueKeyString] and [popRandom] *)

Module ReturnFacts.
Import UMap UMapFacts stevensMapLib.
Section returns.
Context {V : Type}.
Implicit Types (k : string) (m : umap string V).

(** The loop only returns a key for which its condition was false. *)
Lemma suffix_loop_returned_absent (fuel : nat) m k (keyString : string)
    (s : Z) (key : string) :
  suffix_loop fuel m k keyString s = Some (Returned key) →
  contains key m = false.
Proof.
  revert keyString s. induction fuel as [|fuel IH]; intros keyString s; [done|].
  cbn [suffix_loop]. destruct (contains keyString m) eqn:Hc.
  - case_decide; [done|]. apply IH.
  - by intros [= <-].
Qed.

End returns.
End ReturnFacts.

Import ReturnFacts.

Section unique_key_extras.
Context {V : Type}.

(** X20.  On a container with fewer than [2^31] entries, the returned
    key is the first of [keyString], [keyString0], [keyString1], ... that
    the container lacks: the container holds every candidate before it,
    and the number of candidates tried before it is at most the size of
    the container. *)
Theorem X20_unique_key_is_the_first_free_candidate
    (map : umap string V) (keyString : string) :
  Z.of_nat (size map) ≤ INT_MAX →
  ∃ j : nat,
    (j ≤ size map)%nat
    ∧ (∀ fuel, (size map < fuel)%nat →
         createUniqueKeyString fuel map keyString "integer concatenation"
         = Some (Returned (candidate keyString j, map)))
    ∧ contains (candidate keyString j) map = false
    ∧ ∀ i, (i < j)%nat → contains (candidate keyString i) map = true.
Proof.
  intros Hmax.
  destruct (suffix_loop_returns keyString map (S (size map)))
    as (j & _ & Hfree & Hbefore); [lia..|].
  exists j. split_and!.
  - by apply (candidates_bounded keyString).
  - intros fuel Hfuel.
    destruct (suffix_loop_returns keyString map fuel)
      as (j' & Hrun & Hfree' & Hbefore'); [lia..|].
    assert (j' = j) as ->.
    { destruct (Nat.lt_trichotomy j' j) as [Hlt|[Heq|Hlt]]; [|done|].
      - by destruct Hfree'; apply Hbefore.
      - by destruct Hfree; apply Hbefore'. }
    by rewrite createUniqueKeyString_loop, Hrun.
  - by apply contains_false.
  - intros i Hi. by apply contains_true, Hbefore.
Qed.

(** X21.  Whatever the size of the container, a key that the algorithm
    ["integer concatenation"] returns is a key that the container lacks,
    and the container is returned as it was. *)
Theorem X21_returned_key_is_never_held
    (fuel : nat) (map map' : umap string V) (keyString key : string) :
  createUniqueKeyString fuel map keyString "integer concatenation"
  = Some (Returned (key, map')) →
  contains key map = false ∧ map' = map.
Proof.
  rewrite createUniqueKeyString_loop.
  destruct (suffix_loop fuel map keyString keyString 0) as [[key0| |]|] eqn:Hrun;
    try done.
  intros [= <- <-]. split; [|done].
  by eapply suffix_loop_returned_absent.
Qed.

(** X22.  On a container with fewer than [2^31] entries, binding the
    returned key adds one entry and overwrites none. *)
Theorem X22_binding_the_unique_key_adds_an_entry
    (map : umap string V) (keyString : string) (value : V) :
  Z.of_nat (size map) ≤ INT_MAX →
  ∃ key,
    (∀ fuel, (size map < fuel)%nat →
       createUniqueKeyString fuel map keyString "integer concatenation"
       = Some (Returned (key, map)))
    ∧ size (assign key value map) = S (size map)
    ∧ get key (assign key value map) = Some value
    ∧ ∀ k v, get k map = Some v → get k (assign key value map) = Some v.
Proof.
  intros Hmax.
  destruct (suffix_loop_returns keyString map (S (size map)))
    as (j & Hrun0 & Hfree & Hbefore); [lia..|].
  assert (contains (candidate keyString j) map = false) as Hc
    by (by apply contains_false).
  exists (candidate keyString j). split_and!.
  - intros fuel Hfuel.
    destruct (suffix_loop_returns keyString map fuel)
      as (j' & Hrun & Hfree' & Hbefore'); [lia..|].
    assert (j' = j) as ->.
    { destruct (Nat.lt_trichotomy j' j) as [Hlt|[Heq|Hlt]]; [|done|].
      - by destruct Hfree'; apply Hbefore.
      - by destruct Hfree; apply Hbefore'. }
    by rewrite createUniqueKeyString_loop, Hrun.
  - by rewrite size_assign, Hc.
  - apply get_assign_eq.
  - intros k v Hget. rewrite get_assign_ne; [done|].
    intros ->. apply get_None in Hfree. congruence.
Qed.

End unique_key_extras.

Section pop_extras.
Context {K V : Type} `{EqDecision K}.

(** X23.  On a container that is not empty, binding the popped key to
    the popped value again gives back every binding of the container
    before [popRandom]; the container after [popRandom] holds no key
    twice. *)
Theorem X23_pop_then_bind_restores
    (dflt : V) (map : umap K V) (rand : nat) :
  wf map → map ≠ [] →
  ∃ key value map',
    popRandom dflt map rand = Returned ((key, value), map')
    ∧ wf map'
    ∧ ∀ k, get k (assign key value map') = get k map.
Proof.
  intros Hwf Hne.
  destruct (getRandomKey_nonempty map rand Hne) as (key & Hkey & Hin).
  assert (contains key map = true) as Hc by (by apply contains_true).
  destruct (proj1 (contains_get key map) Hc) as [value Hvalue].
  exists key, value, (erase key map). split_and!.
  - unfold popRandom, subscript. by rewrite Hkey, Hvalue.
  - by apply wf_erase.
  - intros k. rewrite get_assign. case_decide as Hk; [by subst|].
    by apply get_erase_ne.
Qed.

(** X24.  [popRandom] reads [map[key]] for a key that the container
    holds: the value that [operator[]] inserts for a missing key shows
    neither in the pair nor in the container, and on the empty container
    the call stops before that read. *)
Theorem X24_pop_never_reads_missing_key
    (d1 d2 : V) (map : umap K V) (rand : nat) :
  popRandom d1 map rand = popRandom d2 map rand.
Proof.
  destruct map as [|e map]; [done|].
  destruct (getRandomKey_nonempty (e :: map) rand) as (key & Hkey & Hin);
    [done|].
  apply contains_true, contains_get in Hin as [value Hvalue].
  unfold popRandom, subscript. by rewrite Hkey, Hvalue.
Qed.

End pop_extras.

Lemma X20_witness :
  Z.of_nat (size k_k0_map) ≤ INT_MAX
  ∧ ∃ j : nat,
      (j ≤ 2)%nat
      ∧ (∀ fuel, (2 < fuel)%nat →
           createUniqueKeyString fuel k_k0_map "k" "integer concatenation"
           = Some (Returned (candidate "k" j, k_k0_map)))
      ∧ contains (candidate "k" j) k_k0_map = false
      ∧ ∀ i, (i < j)%nat → contains (candidate "k" i) k_k0_map = true.
Proof.
  assert (Z.of_nat (size k_k0_map) ≤ INT_MAX) as Hsize
    by (vm_compute; discriminate).
  split; [exact Hsize|].
  exact (X20_unique_key_is_the_first_free_candidate k_k0_map "k" Hsize).
Defined.

Lemma X21_witness :
  createUniqueKeyString 3 k_k0_map "k" "integer concatenation"
  = Some (Returned ("k1", k_k0_map))
  ∧ contains "k1" k_k0_map = false ∧ k_k0_map = k_k0_map.
Proof.
  assert (createUniqueKeyString 3 k_k0_map "k" "integer concatenation"
          = Some (Returned ("k1", k_k0_map))) as Hrun by reflexivity.
  split; [exact Hrun|].
  exact (X21_returned_key_is_never_held 3 k_k0_map k_k0_map "k" "k1" Hrun).
Defined.

Lemma X22_witness :
  Z.of_nat (size k_k0_map) ≤ INT_MAX
  ∧ ∃ key,
      (∀ fuel, (2 < fuel)%nat →
         createUniqueKeyString fuel k_k0_map "k" "integer concatenation"
         = Some (Returned (key, k_k0_map)))
      ∧ size (assign key 7 k_k0_map) = 3%nat
      ∧ get key (assign key 7 k_k0_map) = Some 7
      ∧ ∀ k v, get k k_k0_map = Some v → get k (assign key 7 k_k0_map) = Some v.
Proof.
  assert (Z.of_nat (size k_k0_map) ≤ INT_MAX) as Hsize
    by (vm_compute; discriminate).
  split; [exact Hsize|].
  exact (X22_binding_the_unique_key_adds_an_entry k_k0_map "k" 7 Hsize).
Defined.

Lemma X23_witness :
  wf negatives_example ∧ negatives_example ≠ []
  ∧ ∃ key value map',
      popRandom 0 negatives_example 7 = Returned ((key, value), map')
      ∧ wf map'
      ∧ ∀ k, get k (assign key value map') = get k negatives_example.
Proof.
  assert (wf negatives_example) as Hwf by (unfold wf; compute_done).
  assert (negatives_example ≠ []) as Hne by discriminate.
  split; [exact Hwf|]. split; [exact Hne|].
  exact (X23_pop_then_bind_restores 0 negatives_example 7 Hwf Hne).
Defined.

(** ** [addUnordered_maps] with [omitKeysNotShared]; the overflow of the
    suffix counter *)

Module OmitFacts.
Import UMap UMapFacts stevensMapLib AddFacts.
Section omit.
Context {K V : Type} `{EqDecision K}.
Variable addK : K → K → K.
Variable addV : V → V → V.
Variable dflt : V.
Implicit Types (k : K) (v : V) (A B AB m : umap K V) (t : string).

Local Abbreviation step := (add_shared_step addK addV dflt).
Local Abbreviation combined A B t :=
  (λ k, (if decide (t = "values") then k else addK k k,
         addV (from_option id dflt (get k A)) (from_option id dflt (get k B)))).

Lemma assign_fresh k v m : k ∉ keys m → assign k v m = m ++ [(k, v)].
Proof.
  induction m as [|[k0 v0] m IH]; intros Hk; cbn; [done|].
  change (keys ((k0, v0) :: m)) with (k0 :: keys m) in Hk.
  apply not_elem_of_cons in Hk as [? ?].
  rewrite decide_False by done. by rewrite IH.
Qed.

Lemma subscript_from_option k m :
  (subscript dflt k m).1 = from_option id dflt (get k m).
Proof. unfold subscript. by destruct (get k m). Qed.

Lemma omit_entries A B t A' AB :
  NoDup (keys AB ++ ((combined A B t <$> filter (λ k, k ∈ keys B) (keys A')).*1)) →
  foldl (step A B t true) AB A'
  = AB ++ (combined A B t <$> filter (λ k, k ∈ keys B) (keys A')).
Proof.
  revert AB. induction A' as [|[k0 v0] A' IH]; intros AB Hnd.
  - cbn. by rewrite app_nil_r.
  - change (keys ((k0, v0) :: A')) with (k0 :: keys A') in *.
    cbn [foldl]. destruct (decide (k0 ∈ keys B)) as [Hin|Hnin].
    + rewrite filter_cons_True in * by done. rewrite !fmap_cons in *.
      rewrite step_shared by by apply contains_true.
      rewrite !subscript_from_option.
      assert ((combined A B t k0).1 ∉ keys AB) as Hfresh.
      { intros Hc. apply NoDup_app in Hnd as (_ & Hdisj & _).
        apply (Hdisj _ Hc). left. }
      cbn [fst] in Hfresh. rewrite assign_fresh by done.
      rewrite IH.
      * by rewrite <-app_assoc.
      * unfold keys at 1. rewrite fmap_app. cbn [fmap list_fmap fst].
        by rewrite <-app_assoc.
    + rewrite filter_cons_False in * by done.
      rewrite step_unshared by by apply contains_false.
      by apply IH.
Qed.

End omit.
End OmitFacts.

Import OmitFacts.

Section omit_extras.
Context {V : Type}.
Variable addV : V → V → V.
Variable dflt : V.

(** X25.  For string keys and [omitKeysNotShared = true], the entries
    of the result are, in whatever order the result is iterated, one
    entry for each shared key, bound to the sum of its two values; its
    key is the shared key for target ["values"] and the shared key
    doubled for every other target. *)
Theorem X25_add_omitted_is_the_combined_shared_entries
    (A B : umap string V) (addOperationTarget : string) :
  wf A →
  addUnordered_maps String.append addV dflt A B addOperationTarget true
  ≡ₚ (λ k, (if decide (addOperationTarget = "values") then k else k +:+ k,
            addV (from_option id dflt (get k A))
                 (from_option id dflt (get k B))))
     <$> sharedKeys A B.
Proof.
  intros Hwf. unfold addUnordered_maps. cbn [negb].
  rewrite (omit_entries String.append addV dflt A B addOperationTarget A []);
    [done|].
  cbn [keys fmap list_fmap app]. rewrite <-list_fmap_compose.
  apply NoDup_fmap_2_strong; [|by apply NoDup_filter].
  intros x y _ _. cbn. case_decide; [done|]. apply string_double_inj.
Qed.

(** X26.  When the container holds [keyString] and [keyString] with
    every suffix from [0] to [INT_MAX - 1], the algorithm
    ["integer concatenation"] returns no key, whatever the fuel: after
    [2^31] evaluations of the loop condition the suffix counter, an
    [int], is incremented at [INT_MAX]. *)
Theorem X26_suffix_counter_overflows
    (map : umap string V) (keyString : string) :
  contains keyString map = true →
  (∀ i, 0 ≤ i < INT_MAX → contains (keyString +:+ to_string i) map = true) →
  (∀ fuel key map',
     createUniqueKeyString fuel map keyString "integer concatenation"
     ≠ Some (Returned (key, map')))
  ∧ createUniqueKeyString (S (Z.to_nat INT_MAX)) map keyString
      "integer concatenation"
    = Some (Undefined SignedOverflow).
Proof.
  intros Hkey Hall. split.
  - intros fuel key map'. rewrite createUniqueKeyString_loop.
    destruct (suffix_loop_saturated keyString map fuel keyString 0)
      as [->| ->]; done.
  - rewrite createUniqueKeyString_loop.
    rewrite (suffix_loop_overflows keyString map); [done|done| |done..].
    unfold INT_MAX. lia.
Qed.

End omit_extras.

Lemma X25_witness :
  wf overlap_A
  ∧ add_string_Z overlap_A overlap_B "keys and values" true ≡ₚ [("yy", 12)].
Proof.
  assert (wf overlap_A) as Hwf by (unfold wf; compute_done).
  split; [exact Hwf|].
  exact (X25_add_omitted_is_the_combined_shared_entries Z.add 0
           overlap_A overlap_B "keys and values" Hwf).
Defined.

Lemma X26_witness :
  contains "k" low_suffixes_map = true
  ∧ (∀ i, 0 ≤ i < INT_MAX →
       contains ("k" +:+ to_string i) low_suffixes_map = true)
  ∧ createUniqueKeyString (S (Z.to_nat INT_MAX)) low_suffixes_map "k"
      "integer concatenation"
    = Some (Undefined SignedOverflow).
Proof.
  assert (contains "k" low_suffixes_map = true) as Hkey
    by apply suffixed_map_contains_key.
  assert (∀ i, 0 ≤ i < INT_MAX →
            contains ("k" +:+ to_string i) low_suffixes_map = true) as Hall.
  { intros i Hi. apply suffixed_map_contains_suffixed, elem_of_seqZ. lia. }
  split; [exact Hkey|]. split; [exact Hall|].
  exact (proj2 (X26_suffix_counter_overflows low_suffixes_map "k" Hkey Hall)).
Defined.
